(** * The [Credit] model of [pay_api.models.credit]

    A shallow embedding of [pay-api/src/pay_api/models/credit.py]: the
    [credits] table and its entity, the two class-method queries
    [find_by_cfs_identifier] and [find_remaining_by_account_id], the mapper
    allow-list and the auto-generated Marshmallow schema.

    The two amount columns are [db.Float], that is IEEE binary64 both in the
    store (PostgreSQL [double precision]) and in Python ([float]); they are
    modelled by Rocq's primitive binary64 floats, so that every sum below is
    the sum the machine computes. *)

From Stdlib Require Import ZArith QArith List String Ascii Bool Lia Permutation.
From Stdlib Require Import PrimFloat FloatOps SpecFloat FloatAxioms.
Import ListNotations.
Local Open Scope Z_scope.

Set Implicit Arguments.

(** ** Python results: a value or a raised exception *)

Inductive exn : Type :=
| MultipleResultsFound     (* sqlalchemy.exc, raised by [one_or_none] *)
| IntegrityError           (* a NOT NULL, key or foreign-key constraint *)
| DataError                (* a value the column type cannot hold *)
| InvalidOperation         (* decimal: a string that is not a number *)
| ValidationError          (* named by the specification only *)
| InsufficientCreditError. (* named by the specification only *)

Inductive result (A : Type) : Type :=
| Ok (a : A)
| Raise (e : exn).

Arguments Ok {A} a.
Arguments Raise {A} e.

Definition bind {A B : Type} (r : result A) (k : A -> result B) : result B :=
  match r with
  | Ok a => k a
  | Raise e => Raise e
  end.

Notation "x <- r ;; k" := (bind r (fun x => k))
  (at level 61, r at next level, right associativity).

(** ** Binary64 values and their exact rational reading *)

Module F64.

(** The rational a finite float denotes; [None] for infinities and NaN. *)
Definition exact (x : float) : option Q :=
  match Prim2SF x with
  | S754_zero _ => Some 0%Q
  | S754_finite s m e =>
      let v := (inject_Z (Z.pos m) * Qpower 2 e)%Q in
      Some (if s then Qopp v else v)
  | S754_infinity _ | S754_nan => None
  end.

Definition opt_Qeqb (a b : option Q) : bool :=
  match a, b with
  | Some p, Some q => Qeq_bool p q
  | _, _ => false
  end.

(** [|x| = num / den] for a finite non-zero float of mantissa [m] and
    exponent [e]. *)
Definition ratio (m : positive) (e : Z) : Z * Z :=
  if 0 <=? e then (Z.pos m * 2 ^ e, 1) else (Z.pos m, 2 ^ (- e)).

(** [num / den < 10 ^ k], on integers. *)
Definition lt_pow10 (num den k : Z) : bool :=
  if 0 <=? k then num <? den * 10 ^ k else num * 10 ^ (- k) <? den.

(** The position of the decimal point: the least [k], searched upwards from
    [k], with [num / den < 10 ^ k]. *)
Fixpoint find_decpt (fuel : nat) (num den k : Z) : Z :=
  match fuel with
  | O => k
  | S fuel' =>
      if lt_pow10 num den k then k else find_decpt fuel' num den (k + 1)
  end.

(** The search starts just below the decimal logarithm of [num / den], as
    the binary logarithms of [num] and [den] bound it (log10 2 < 0.30103):
    [10 ^ start <= num / den], and the decimal point is at most four
    places further on. *)
Definition decpt_of (num den : Z) : Z :=
  let l := Z.log2 num - Z.log2 den in
  find_decpt 8 num den ((l - 1) * 30103 / 100000 - 1).

(** [num / den] cut to [p] significant decimal digits, for the decimal point
    [decpt] of [num / den]: the coefficient [c] of the greatest decimal
    [c * 10^(decpt - p)] that is at most [num / den], so that
    [10^(p-1) <= c < 10^p], and how the rest compares with half a unit of the
    last digit. *)
Definition truncate_sig (num den decpt : Z) (p : Z) : Z * comparison :=
  let k := decpt - p in
  let n := if 0 <=? k then num else num * 10 ^ (- k) in
  let d := if 0 <=? k then den * 10 ^ k else den in
  (n / d, (2 * (n mod d)) ?= d).

(** The nearer of the coefficients [c] and [c + 1], the even one on a tie. *)
Definition nearest_sig (c : Z) (half : comparison) : Z :=
  match half with
  | Lt => c
  | Gt => c + 1
  | Eq => if Z.even c then c else c + 1
  end.

(** The [p] digits and the decimal point of a coefficient: a coefficient that
    has reached [10^p] is [10^(p-1)] one place further on. *)
Definition sig_digits (c decpt p : Z) : Z * Z * Z :=
  if c =? 10 ^ p then (10 ^ (p - 1), decpt + 1, p) else (c, decpt, p).

Definition dec_value (c k : Z) : Q := (inject_Z c * Qpower 10 k)%Q.

(** The magnitude of a finite float, and 2^1024 past the largest one. *)
Definition magnitude (x : float) : Q :=
  match exact x with
  | Some q => q
  | None => Qpower 2 1024
  end.

(** Whether the positive rational [q] converts to the positive finite float
    [ax] under round-to-nearest, ties to the even mantissa: [q] lies between
    the midpoints to the neighbours of [ax], the midpoints themselves
    counting when the mantissa of [ax] is even. *)
Definition rounds_to (q : Q) (ax : float) (m : positive) : bool :=
  let v := magnitude ax in
  let lo := ((magnitude (next_down ax) + v) / 2)%Q in
  let hi := ((v + magnitude (next_up ax)) / 2)%Q in
  let even := Z.even (Z.pos m) in
  match Qcompare lo q, Qcompare q hi with
  | Lt, Lt => true
  | Eq, Lt | Lt, Eq => even
  | _, _ => false
  end.

(** The shortest digit string that reads back as the float, and the nearest to
    it of that length: David Gay's [dtoa] in mode 0, which [repr] calls. At
    each precision [p], from 1 digit on, the candidates are the float cut to
    [p] digits and the next [p]-digit decimal above it; the search stops at
    the first precision at which one of them converts back to the float, and
    takes the nearer of the two when both do. Seventeen digits always suffice
    for binary64: there the nearest decimal is taken. *)
Fixpoint shortest (fuel : nat) (p : Z) (ax : float) (m : positive)
    (num den decpt0 : Z) : Z * Z * Z :=
  let '(c, half) := truncate_sig num den decpt0 p in
  match fuel with
  | O => sig_digits (nearest_sig c half) decpt0 p
  | S fuel' =>
      let below := rounds_to (dec_value c (decpt0 - p)) ax m in
      let above := rounds_to (dec_value (c + 1) (decpt0 - p)) ax m in
      if below && above then sig_digits (nearest_sig c half) decpt0 p
      else if below then sig_digits c decpt0 p
      else if above then sig_digits (c + 1) decpt0 p
      else shortest fuel' (p + 1) ax m num den decpt0
  end.

(** Digits, decimal point and digit count of a finite non-zero float. *)
Definition digits (x : float) (m : positive) (e : Z) : Z * Z * Z :=
  let '(num, den) := ratio m e in
  shortest 16 1 (abs x) m num den (decpt_of num den).

End F64.

(** ** Python's [str] of a float *)

Definition digit_char (d : Z) : ascii := ascii_of_nat (48 + Z.to_nat d).

(** The last [n] decimal digits of [c], most significant first. *)
Fixpoint digits_string (n : nat) (c : Z) (acc : string) : string :=
  match n with
  | O => acc
  | S n' => digits_string n' (c / 10) (String (digit_char (c mod 10)) acc)
  end.

Fixpoint zeros (n : nat) : string :=
  match n with
  | O => EmptyString
  | S n' => String "0" (zeros n')
  end.

(** How many decimal digits a natural number has. *)
Fixpoint num_digits (fuel : nat) (n : Z) : nat :=
  match fuel with
  | O => 1%nat
  | S fuel' => if n <? 10 then 1%nat else S (num_digits fuel' (n / 10))
  end.

(** The digits of a natural number, at least [width] of them (C's [%+.02d]
    prints the exponent, which stays below 400). *)
Definition nat_string (width : nat) (n : Z) : string :=
  digits_string (Nat.max width (num_digits 20 n)) n EmptyString.

(** [float.__repr__] (which [str] uses), CPython's [format_float_short] with
    format code ['r']: the shortest digits [d1 ... dn] and the decimal point
    [decpt]; exponent notation when [decpt <= -4] or [decpt > 16], positional
    notation otherwise, with [.0] added when no fraction digit is left. *)
Definition format_repr (neg : bool) (c decpt n : Z) : string :=
  let ds := digits_string (Z.to_nat n) c EmptyString in
  let body :=
    if (decpt <=? -4) || (16 <? decpt) then
      let ex := decpt - 1 in
      let mant :=
        match ds with
        | String d EmptyString => String d EmptyString
        | String d rest => String d (String "." rest)
        | EmptyString => EmptyString
        end in
      let sg : string := if ex <? 0 then "-"%string else "+"%string in
      let digs := nat_string 2 (Z.abs ex) in
      (mant ++ "e" ++ sg ++ digs)%string
    else if decpt <=? 0 then
      let pad := zeros (Z.to_nat (- decpt)) in
      ("0." ++ pad ++ ds)%string
    else if n <=? decpt then
      let pad := zeros (Z.to_nat (decpt - n)) in
      (ds ++ pad ++ ".0")%string
    else
      let int_part := substring 0 (Z.to_nat decpt) ds in
      let frac_part := substring (Z.to_nat decpt) (Z.to_nat (n - decpt)) ds in
      (int_part ++ "." ++ frac_part)%string in
  if neg then String "-" body else body.

Definition float_str (x : float) : string :=
  match Prim2SF x with
  | S754_nan => "nan"
  | S754_infinity s => if s then "-inf" else "inf"
  | S754_zero s => if s then "-0.0" else "0.0"
  | S754_finite s m e =>
      let '(c, decpt, n) := F64.digits x m e in
      format_repr s c decpt n
  end.

(** ** Python's [Decimal] *)

Inductive Decimal : Type :=
| Dec (sign : bool) (coefficient : Z) (exponent : Z)
| DecInfinity (sign : bool)
| DecNaN.

(** The number a finite [Decimal] denotes, exactly. *)
Definition Decimal_value (d : Decimal) : option Q :=
  match d with
  | Dec s c e =>
      let v := F64.dec_value c e in
      Some (if s then Qopp v else v)
  | DecInfinity _ | DecNaN => None
  end.

Definition digit_of (a : ascii) : option Z :=
  let n := Z.of_nat (nat_of_ascii a) in
  if (48 <=? n) && (n <=? 57) then Some (n - 48) else None.

(** Reads a run of digits: the number read so far, how many digits were
    read, and the rest of the string. *)
Fixpoint read_digits (s : string) (acc count : Z) : Z * Z * string :=
  match s with
  | String a rest =>
      match digit_of a with
      | Some d => read_digits rest (10 * acc + d) (count + 1)
      | None => (acc, count, s)
      end
  | EmptyString => (acc, count, s)
  end.

Definition read_sign (s : string) : bool * string :=
  match s with
  | String "-" rest => (true, rest)
  | String "+" rest => (false, rest)
  | _ => (false, s)
  end.

Definition is_exponent_mark (a : ascii) : bool :=
  Ascii.eqb a "e" || Ascii.eqb a "E".

(** [Decimal(s)] for a string [s]: an optional sign, then [inf] or [nan], or
    digits with an optional point and an optional exponent. The coefficient is
    the digits read as one integer, the exponent the written one less the
    number of fraction digits. Anything else raises [InvalidOperation].
    (Python also accepts surrounding blanks, underscores and the long
    spellings of the special values; [str] of a float writes none.) *)
Definition Decimal_of_string (s : string) : result Decimal :=
  let '(neg, s1) := read_sign s in
  if String.eqb s1 "inf" then Ok (DecInfinity neg)
  else if String.eqb s1 "nan" then Ok DecNaN
  else
    let '(ip, ni, s2) := read_digits s1 0 0 in
    let '(c, nf, s3) :=
      match s2 with
      | String "." rest => read_digits rest ip 0
      | _ => (ip, 0, s2)
      end in
    if ni + nf =? 0 then Raise InvalidOperation
    else
      match s3 with
      | EmptyString => Ok (Dec neg c (- nf))
      | String a rest =>
          if is_exponent_mark a then
            let '(eneg, r1) := read_sign rest in
            let '(ev, ne, r2) := read_digits r1 0 0 in
            if (ne =? 0) || negb (String.eqb r2 EmptyString)
            then Raise InvalidOperation
            else Ok (Dec neg c ((if eneg then - ev else ev) - nf))
          else Raise InvalidOperation
      end.

(** ** The [credits] table *)

(** A point in time, in microseconds of UTC since the epoch. *)
Definition datetime : Type := Z.

(** One row of [credits], as the entity presents it once loaded. Every column
    but the two amounts is nullable; [amount] and [remaining_amount] are
    [db.Float, nullable=False]. *)
Record Credit : Type := {
  id : Z;
  cfs_identifier : option string;
  cfs_site : option string;
  is_credit_memo : option bool;
  amount : float;
  remaining_amount : float;
  details : option string;
  created_on : option datetime;
  created_invoice_id : option Z;
  account_id : option Z
}.

(** The keyword arguments of the constructor [Credit(...)]: the declarative
    constructor assigns the attributes it is given and leaves the others
    [None]. *)
Module Init.
Record t : Type := {
  id : option Z;
  cfs_identifier : option string;
  cfs_site : option string;
  is_credit_memo : option bool;
  amount : option float;
  remaining_amount : option float;
  details : option string;
  created_on : option datetime;
  created_invoice_id : option Z;
  account_id : option Z
}.
End Init.

(** The store: the rows of [credits] in insertion order, the keys of the
    three tables its foreign keys point to, and the next value of the
    sequence behind [id]. *)
Record DB : Type := {
  credits : list Credit;
  payment_accounts : list Z;   (* payment_accounts.id *)
  invoices : list Z;           (* invoices.id *)
  cfs_accounts : list string;  (* cfs_accounts.cfs_site *)
  credits_id_seq : Z
}.

(** [filter_by(column=value)] with a value that is not [None]: the SQL
    comparison [column = value], which a NULL column never satisfies. *)
Definition sql_eq {A : Type} (eqb : A -> A -> bool) (column : option A)
    (value : A) : bool :=
  match column with
  | Some v => eqb v value
  | None => false
  end.

(** [Query.one_or_none()]. *)
Definition one_or_none {A : Type} (rows : list A) : result (option A) :=
  match rows with
  | [] => Ok None
  | [r] => Ok (Some r)
  | _ :: _ :: _ => Raise MultipleResultsFound
  end.

(** The three [filter_by] clauses the queries use. *)
Definition filter_by_cfs_identifier (value : string) (rows : list Credit)
    : list Credit :=
  filter (fun c => sql_eq String.eqb c.(cfs_identifier) value) rows.

Definition filter_by_is_credit_memo (value : bool) (rows : list Credit)
    : list Credit :=
  filter (fun c => sql_eq Bool.eqb c.(is_credit_memo) value) rows.

Definition filter_by_account_id (value : Z) (rows : list Credit)
    : list Credit :=
  filter (fun c => sql_eq Z.eqb c.(account_id) value) rows.

(** [Credit.find_by_cfs_identifier(cfs_identifier, credit_memo)]. *)
Definition find_by_cfs_identifier (db : DB) (cfs_identifier : string)
    (credit_memo : bool) : result (option Credit) :=
  one_or_none
    (filter_by_is_credit_memo credit_memo
       (filter_by_cfs_identifier cfs_identifier db.(credits))).

(** The call that leaves [credit_memo] out: the parameter's default is
    [False]. *)
Definition find_by_cfs_identifier_default (db : DB) (cfs_identifier : string)
    : result (option Credit) :=
  find_by_cfs_identifier db cfs_identifier false.

(** Addition of [double precision] values in the store: PostgreSQL's
    [float8pl] refuses a sum that overflows (an infinite result of finite
    operands), which SQLAlchemy raises as [DataError]. *)
Definition float8pl (x y : float) : result float :=
  let r := (x + y)%float in
  if is_infinity r && negb (is_infinity x) && negb (is_infinity y)
  then Raise DataError
  else Ok r.

Fixpoint float8_accum (acc : float) (l : list float) : result float :=
  match l with
  | [] => Ok acc
  | x :: l' => s <- float8pl acc x ;; float8_accum s l'
  end.

(** [sum(...)] over a [double precision] column: NULL over no rows, else the
    values added in one pass, in row order. *)
Definition sql_sum (l : list float) : result (option float) :=
  match l with
  | [] => Ok None
  | x :: l' => s <- float8_accum x l' ;; Ok (Some s)
  end.

(** [coalesce(x, 0)], at type [double precision]. *)
Definition coalesce (x : option float) (default : float) : float :=
  match x with
  | Some v => v
  | None => default
  end.

(** [Credit.find_remaining_by_account_id(account_id)]: the scalar of
    [SELECT coalesce(sum(remaining_amount), 0) FROM credits
     WHERE account_id = :account_id], through [str] into [Decimal]. *)
Definition find_remaining_by_account_id (db : DB) (account_id : Z)
    : result Decimal :=
  scalar <-
    sql_sum (map remaining_amount (filter_by_account_id account_id db.(credits))) ;;
  Decimal_of_string (float_str (coalesce scalar 0%float)).

(** ** Creating a credit *)

Definition opt_len_ok (limit : nat) (v : option string) : bool :=
  match v with
  | Some s => (String.length s <=? limit)%nat
  | None => true
  end.

Definition opt_in {A : Type} (eqb : A -> A -> bool) (v : option A)
    (keys : list A) : bool :=
  match v with
  | Some k => existsb (eqb k) keys
  | None => true
  end.

(** [db.Integer] is the store's [integer], of 32 bits. *)
Definition int32_ok (n : Z) : bool := (- 2 ^ 31 <=? n) && (n <? 2 ^ 31).

Definition opt_int32_ok (v : option Z) : bool :=
  match v with
  | Some n => int32_ok n
  | None => true
  end.

(** What the store holds for a Python float given to an INSERT. The driver
    writes the float into the statement as a number, and the store reads
    [-0.0] as the number zero, which has no sign: a negative zero is stored
    as [+0.0]. Every other float, NaN and the infinities included, is stored
    as it is. *)
Definition float8_literal (x : float) : float :=
  if (x =? 0)%float then 0%float else x.

(** The same on the specification of binary64: the sign of a zero is
    dropped. *)
Definition SF_literal (x : spec_float) : spec_float :=
  match x with
  | S754_zero _ => S754_zero false
  | _ => x
  end.

(** The key a new row gets: the [id] given, or the next value of the
    sequence. *)
Definition insert_id (k : Init.t) (db : DB) : Z :=
  match k.(Init.id) with
  | Some i => i
  | None => db.(credits_id_seq)
  end.

(** Persisting a new [Credit]: [db.session.add(credit)] and the flush of a
    commit, which is all a call of the inherited [save()] can add to the
    constructor, [credit.py] overriding nothing. It is one INSERT into
    [credits] under the constraints the class declares. [String(50)],
    [String(50)] and [String(200)] bound the three texts, and [Integer] the
    key and the two integer references: a value that does not fit is refused
    with [DataError]. The key [id] is taken from the sequence when not given
    and must be new; the two amounts are [nullable=False]; the three foreign
    keys must point to existing rows: a violation of these raises
    [IntegrityError]. [is_credit_memo] and [created_on] take their column
    default when the attribute is [None] (the ORM leaves such a column out of
    the INSERT). The class has no [__init__], no validator and no check
    constraint, so nothing else is looked at. The result is the row as the
    store holds it, with the store after; a refusal adds no row. [now] is the
    clock that the default of [created_on] reads. *)
Definition insert (now : datetime) (k : Init.t) (db : DB) : result (Credit * DB) :=
  let new_id := insert_id k db in
  let next_seq :=
    match k.(Init.id) with
    | Some _ => db.(credits_id_seq)
    | None => db.(credits_id_seq) + 1
    end in
  if negb (opt_len_ok 50 k.(Init.cfs_identifier)
           && opt_len_ok 50 k.(Init.cfs_site)
           && opt_len_ok 200 k.(Init.details))
  then Raise DataError
  else if negb (int32_ok new_id
                && opt_int32_ok k.(Init.created_invoice_id)
                && opt_int32_ok k.(Init.account_id))
  then Raise DataError
  else
    match k.(Init.amount), k.(Init.remaining_amount) with
    | Some a, Some r =>
        if existsb (fun c => c.(id) =? new_id) db.(credits)
        then Raise IntegrityError
        else if negb (opt_in String.eqb k.(Init.cfs_site) db.(cfs_accounts)
                      && opt_in Z.eqb k.(Init.created_invoice_id) db.(invoices)
                      && opt_in Z.eqb k.(Init.account_id) db.(payment_accounts))
        then Raise IntegrityError
        else
          let row := {|
            id := new_id;
            cfs_identifier := k.(Init.cfs_identifier);
            cfs_site := k.(Init.cfs_site);
            is_credit_memo :=
              match k.(Init.is_credit_memo) with
              | Some b => Some b
              | None => Some false                 (* default=False *)
              end;
            amount := float8_literal a;
            remaining_amount := float8_literal r;
            details := k.(Init.details);
            created_on :=
              match k.(Init.created_on) with
              | Some t => Some t
              | None => Some now                   (* default=lambda: now(utc) *)
              end;
            created_invoice_id := k.(Init.created_invoice_id);
            account_id := k.(Init.account_id)
          |} in
          Ok (row,
              {| credits := db.(credits) ++ [row];
                 payment_accounts := db.(payment_accounts);
                 invoices := db.(invoices);
                 cfs_accounts := db.(cfs_accounts);
                 credits_id_seq := next_seq |})
    | _, _ => Raise IntegrityError
    end.

(** The store after a creation was refused. A statement refused before it
    runs (a text too long, an integer out of range: [DataError]) leaves the
    store as it was. One refused while it runs ([IntegrityError]) has drawn
    its [id] from the sequence when none was given, and a sequence does not
    go back when the transaction is rolled back. No row is added. *)
Definition refused (k : Init.t) (e : exn) (db : DB) : DB :=
  match e, k.(Init.id) with
  | IntegrityError, None =>
      {| credits := db.(credits);
         payment_accounts := db.(payment_accounts);
         invoices := db.(invoices);
         cfs_accounts := db.(cfs_accounts);
         credits_id_seq := db.(credits_id_seq) + 1 |}
  | _, _ => db
  end.

(** ** The operations of the entity, as steps on the store *)

Inductive operation : Type :=
| Find_by_cfs_identifier (cfs_identifier : string) (credit_memo : bool)
| Find_remaining_by_account_id (account_id : Z)
| Insert (now : datetime) (k : Init.t).

Inductive outcome : Type :=
| Found (r : result (option Credit))
| Remaining (r : result Decimal)
| Inserted (r : result Credit).

(** The two queries read the store and leave it as it is; a creation adds
    its row when it succeeds, and adds none when it is refused. *)
Definition step (db : DB) (o : operation) : DB * outcome :=
  match o with
  | Find_by_cfs_identifier s m => (db, Found (find_by_cfs_identifier db s m))
  | Find_remaining_by_account_id a => (db, Remaining (find_remaining_by_account_id db a))
  | Insert now k =>
      match insert now k db with
      | Ok (row, db') => (db', Inserted (Ok row))
      | Raise e => (refused k e db, Inserted (Raise e))
      end
  end.

(** [0 <= remaining_amount <= amount], on the floats of a row. *)
Definition credit_invariant (c : Credit) : bool :=
  ((0 <=? c.(remaining_amount)) && (c.(remaining_amount) <=? c.(amount)))%float.

(** Whether an operation brings only amounts that satisfy the invariant: the
    queries bring none, [insert] brings the two amounts of its arguments. *)
Definition supplies_invariant (o : operation) : bool :=
  match o with
  | Insert _ k =>
      match k.(Init.amount), k.(Init.remaining_amount) with
      | Some a, Some r => ((0 <=? r) && (r <=? a))%float
      | _, _ => true
      end
  | _ => true
  end.

(** ** Applying a credit *)

Module Ledger.

(** Modelled from the spec: the Credit of section 3 of the specification,
    whose [amount] and [remaining_amount] are fixed decimals. An amount is
    counted here in units of the last decimal place that the fixed decimal
    type keeps (hundredths, for two places), so that amounts are compared,
    added and subtracted exactly. *)
Record Credit : Type := {
  id : Z;
  account_id : option Z;
  amount : Z;
  remaining_amount : Z;
  is_credit_memo : bool;
  cfs_identifier : option string;
  cfs_site : option string;
  created_invoice_id : option Z;
  details : option string;
  created_on : datetime
}.

End Ledger.

(** Modelled from the spec: [apply(amount_to_apply, invoice_id)] is not in
    [credit.py]; section 4.1 of the specification gives its contract. It
    fails with [InsufficientCreditError] when [amount_to_apply] exceeds
    [remaining_amount], and otherwise decrements [remaining_amount] by
    [amount_to_apply]; the specification names no other check and no other
    effect. The record after the call comes first, then what the call
    returned. *)
Definition apply (c : Ledger.Credit) (amount_to_apply : Z) (invoice_id : Z)
    : Ledger.Credit * result unit :=
  if c.(Ledger.remaining_amount) <? amount_to_apply
  then (c, Raise InsufficientCreditError)
  else ({| Ledger.id := c.(Ledger.id);
           Ledger.account_id := c.(Ledger.account_id);
           Ledger.amount := c.(Ledger.amount);
           Ledger.remaining_amount := c.(Ledger.remaining_amount) - amount_to_apply;
           Ledger.is_credit_memo := c.(Ledger.is_credit_memo);
           Ledger.cfs_identifier := c.(Ledger.cfs_identifier);
           Ledger.cfs_site := c.(Ledger.cfs_site);
           Ledger.created_invoice_id := c.(Ledger.created_invoice_id);
           Ledger.details := c.(Ledger.details);
           Ledger.created_on := c.(Ledger.created_on) |},
        Ok tt).

(** Applications one after the other, each an amount and an invoice, on the
    record the one before left: the record at the end, and the sum of the
    amounts that were accepted. *)
Fixpoint apply_all (c : Ledger.Credit) (applications : list (Z * Z))
    : Ledger.Credit * Z :=
  match applications with
  | [] => (c, 0)
  | (a, invoice) :: rest =>
      let '(c', r) := apply c a invoice in
      let '(c'', total) := apply_all c' rest in
      (c'', match r with
            | Ok _ => a + total
            | Raise _ => total
            end)
  end.

(** The specification's scenario: a credit of 100.00, in hundredths. *)
Definition ledger_credit (remaining : Z) : Ledger.Credit :=
  {| Ledger.id := 1;
     Ledger.account_id := Some 5;
     Ledger.amount := 10000;
     Ledger.remaining_amount := remaining;
     Ledger.is_credit_memo := false;
     Ledger.cfs_identifier := None;
     Ledger.cfs_site := None;
     Ledger.created_invoice_id := None;
     Ledger.details := None;
     Ledger.created_on := 0 |}.

(** ** The mapper and the schema *)

(** A column as [credit.py] declares it: its name and the column its
    [ForeignKey] points to, if any. *)
Record Column : Type := {
  column_name : string;
  foreign_key : option string
}.

Definition column (name : string) : Column :=
  {| column_name := name; foreign_key := None |}.

Definition fk_column (name target : string) : Column :=
  {| column_name := name; foreign_key := Some target |}.

(** The columns of the class body, in the order it declares them. *)
Definition Credit_columns : list Column :=
  [ column "id";
    column "cfs_identifier";
    fk_column "cfs_site" "cfs_accounts.cfs_site";
    column "is_credit_memo";
    column "amount";
    column "remaining_amount";
    column "details";
    column "created_on";
    fk_column "created_invoice_id" "invoices.id";
    fk_column "account_id" "payment_accounts.id" ]%string.

(** [__mapper_args__["include_properties"]]. *)
Definition include_properties : list string :=
  [ "id"; "account_id"; "amount"; "cfs_identifier"; "cfs_site"; "created_on";
    "details"; "is_credit_memo"; "remaining_amount"; "created_invoice_id" ]%string.

(** The mapper maps the columns of the table that [include_properties]
    names, and no other. *)
Definition mapped_columns (table : list Column) : list Column :=
  filter (fun c => existsb (String.eqb c.(column_name)) include_properties) table.

(** The options of a schema's [Meta]. [CreditSchema.Meta] sets [model] and
    [load_instance] only; [SQLAlchemyAutoSchema] reads the options it does not
    find as [False]. *)
Record Meta : Type := {
  load_instance : bool;
  include_fk : bool;
  include_relationships : bool
}.

Definition CreditSchema_Meta : Meta :=
  {| load_instance := true; include_fk := false; include_relationships := false |}.

(** The fields [SQLAlchemyAutoSchema] generates for a model: one for each
    mapped column, a column that carries a foreign key being skipped unless
    [include_fk] is set. (The entity has no relationship.) *)
Definition auto_fields (meta : Meta) (mapped : list Column) : list string :=
  map column_name
    (filter (fun c => meta.(include_fk) ||
                      match c.(foreign_key) with Some _ => false | None => true end)
       mapped).

Definition CreditSchema_fields (table : list Column) : list string :=
  auto_fields CreditSchema_Meta (mapped_columns table).

(** The value of an attribute of the entity. *)
Inductive value : Type :=
| VNone
| VInt (n : Z)
| VStr (s : string)
| VBool (b : bool)
| VFloat (x : float)
| VDateTime (t : datetime).

Definition opt_value {A : Type} (inj : A -> value) (v : option A) : value :=
  match v with
  | Some a => inj a
  | None => VNone
  end.

Definition getattr (c : Credit) (name : string) : value :=
  if String.eqb name "id" then VInt c.(id)
  else if String.eqb name "cfs_identifier" then opt_value VStr c.(cfs_identifier)
  else if String.eqb name "cfs_site" then opt_value VStr c.(cfs_site)
  else if String.eqb name "is_credit_memo" then opt_value VBool c.(is_credit_memo)
  else if String.eqb name "amount" then VFloat c.(amount)
  else if String.eqb name "remaining_amount" then VFloat c.(remaining_amount)
  else if String.eqb name "details" then opt_value VStr c.(details)
  else if String.eqb name "created_on" then opt_value VDateTime c.(created_on)
  else if String.eqb name "created_invoice_id" then opt_value VInt c.(created_invoice_id)
  else if String.eqb name "account_id" then opt_value VInt c.(account_id)
  else VNone.

(** [CreditSchema().dump(credit)]: one entry for each field of the schema,
    holding the attribute of that name (how each value is then written out is
    left aside). *)
Definition CreditSchema_dump (c : Credit) : list (string * value) :=
  map (fun name => (name, getattr c name)) (CreditSchema_fields Credit_columns).

(** ** What the claims speak of *)

(** A row that carries the pair [(cfs_identifier, is_credit_memo)]. *)
Definition has_pair (cfs : string) (memo : bool) (c : Credit) : Prop :=
  c.(cfs_identifier) = Some cfs /\ c.(is_credit_memo) = Some memo.

Definition has_pairb (cfs : string) (memo : bool) (c : Credit) : bool :=
  sql_eq String.eqb c.(cfs_identifier) cfs && sql_eq Bool.eqb c.(is_credit_memo) memo.

(** The rows of the table that carry the pair. *)
Definition rows_with_pair (db : DB) (cfs : string) (memo : bool) : list Credit :=
  filter (has_pairb cfs memo) db.(credits).

(** The store without its credit-memo rows. *)
Definition without_credit_memos (db : DB) : DB :=
  {| credits :=
       filter (fun c => negb (sql_eq Bool.eqb c.(is_credit_memo) true)) db.(credits);
     payment_accounts := db.(payment_accounts);
     invoices := db.(invoices);
     cfs_accounts := db.(cfs_accounts);
     credits_id_seq := db.(credits_id_seq) |}.








(** The exact sum of finite floats, as a rational; [None] when one of them is
    an infinity or NaN. *)
Fixpoint exact_sum (l : list float) : option Q :=
  match l with
  | [] => Some 0%Q
  | x :: l' =>
      match F64.exact x, exact_sum l' with
      | Some a, Some b => Some (a + b)%Q
      | _, _ => None
      end
  end.

(** The exact sum of [remaining_amount] over the rows of an account. *)
Definition exact_remaining (db : DB) (account : Z) : option Q :=
  exact_sum (map remaining_amount (filter_by_account_id account db.(credits))).

(** Whether a call returned a [Decimal] that denotes the rational [q]. *)
Definition returns_exactly (r : result Decimal) (q : option Q) : bool :=
  match r with
  | Ok d => F64.opt_Qeqb (Decimal_value d) q
  | Raise _ => false
  end.

(** The specification's words for [total_remaining_for_account], in the
    arithmetic of the store: one pass over the table that adds the
    [remaining_amount] of every row of the account to the running total,
    which is absent until a first row is met. *)
Fixpoint running_total (account : Z) (total : option float) (rows : list Credit)
    : result (option float) :=
  match rows with
  | [] => Ok total
  | c :: rows' =>
      if sql_eq Z.eqb c.(account_id) account then
        t <- match total with
             | None => Ok c.(remaining_amount)
             | Some t0 => float8pl t0 c.(remaining_amount)
             end ;;
        running_total account (Some t) rows'
      else running_total account total rows'
  end.

(** The total as a [Decimal]: zero when the account has no row, else what
    [str] writes for the running total. *)
Definition total_remaining_for_account (db : DB) (account : Z) : result Decimal :=
  total <- running_total account None db.(credits) ;;
  match total with
  | None => Ok (Dec false 0 (-1))
  | Some t => Decimal_of_string (float_str t)
  end.

(** ** The constraints the columns declare, and runs of operations *)

(** Whether the three foreign keys of a row point to rows of the store. *)
Definition references_hold (db : DB) (c : Credit) : bool :=
  opt_in String.eqb c.(cfs_site) db.(cfs_accounts)
  && opt_in Z.eqb c.(created_invoice_id) db.(invoices)
  && opt_in Z.eqb c.(account_id) db.(payment_accounts).

(** Whether the three texts of a row fit their columns. *)
Definition lengths_hold (c : Credit) : bool :=
  opt_len_ok 50 c.(cfs_identifier)
  && opt_len_ok 50 c.(cfs_site)
  && opt_len_ok 200 c.(details).

(** The origin a new credit is stored with: the [is_credit_memo] given to the
    constructor, or the column default [False]. *)
Definition is_credit_memo_or_default (k : Init.t) : bool :=
  match k.(Init.is_credit_memo) with
  | Some b => b
  | None => false
  end.

(** The scalar of the query of [find_remaining_by_account_id]: the sum as the
    store computes it, NULL over no rows, before [coalesce], [str] and
    [Decimal]. *)
Definition remaining_scalar (db : DB) (account : Z) : result (option float) :=
  sql_sum (map remaining_amount (filter_by_account_id account db.(credits))).

(** What [find_remaining_by_account_id] reads of a row. *)
Definition account_and_remaining (c : Credit) : option Z * float :=
  (c.(account_id), c.(remaining_amount)).

(** Whether every key of the table is below the next value of the sequence,
    as in a table whose keys all came from the sequence. *)
Definition ids_below_seq (db : DB) : bool :=
  forallb (fun c => c.(id) <? db.(credits_id_seq)) db.(credits).

(** Whether constructor arguments give the two amounts, texts that fit their
    columns, references that fit [Integer] and point to rows of the store. *)
Definition arguments_valid (db : DB) (k : Init.t) : bool :=
  match k.(Init.amount), k.(Init.remaining_amount) with
  | Some _, Some _ => true
  | _, _ => false
  end
  && (opt_len_ok 50 k.(Init.cfs_identifier)
      && opt_len_ok 50 k.(Init.cfs_site)
      && opt_len_ok 200 k.(Init.details))
  && (opt_int32_ok k.(Init.created_invoice_id)
      && opt_int32_ok k.(Init.account_id))
  && (opt_in String.eqb k.(Init.cfs_site) db.(cfs_accounts)
      && opt_in Z.eqb k.(Init.created_invoice_id) db.(invoices)
      && opt_in Z.eqb k.(Init.account_id) db.(payment_accounts)).

(** A run of operations, each on the store the one before left. *)
Fixpoint run (db : DB) (ops : list operation) : DB :=
  match ops with
  | [] => db
  | o :: ops' => run (fst (step db o)) ops'
  end.

(** ** Texts of digits *)

(** Whether a string holds decimal digits only. *)
Fixpoint all_digits (s : string) : bool :=
  match s with
  | EmptyString => true
  | String a r =>
      match digit_of a with
      | Some _ => all_digits r
      | None => false
      end
  end.

(** The number that a text of digits writes after the digits of [acc]. *)
Fixpoint digits_value (acc : Z) (s : string) : Z :=
  match s with
  | EmptyString => acc
  | String a r =>
      match digit_of a with
      | Some d => digits_value (10 * acc + d) r
      | None => acc
      end
  end.

(** Whether a string is empty or starts with something else than a digit. *)
Definition stops_digits (s : string) : bool :=
  match s with
  | EmptyString => true
  | String a _ =>
      match digit_of a with
      | Some _ => false
      | None => true
      end
  end.

(** The text after the integer digits of a number: a fraction or none, then
    an exponent or none. *)
Definition number_tail (frac : option string) (ex : option (bool * string))
    : string :=
  ((match frac with
    | Some fp => String "." fp
    | None => EmptyString
    end)
   ++ (match ex with
       | Some (eneg, digs) => String "e" ((if eneg then "-" else "+") ++ digs)
       | None => EmptyString
       end))%string.

Definition opt_digits (frac : option string) : bool :=
  match frac with
  | Some fp => all_digits fp
  | None => true
  end.

Definition exp_digits (ex : option (bool * string)) : bool :=
  match ex with
  | Some (_, digs) => all_digits digs && negb (String.eqb digs EmptyString)
  | None => true
  end.

(** ** Concrete rows and stores *)

(** The doubles Python reads the literals [0.1], [0.2], [1.1] and [2.2] as:
    the nearest ones, written here bit for bit. *)
Definition f0_1 : float := 0x1.999999999999ap-4%float.
Definition f0_2 : float := 0x1.999999999999ap-3%float.
Definition f1_1 : float := 0x1.199999999999ap+0%float.
Definition f2_2 : float := 0x1.199999999999ap+1%float.

(** A row with the given key, external identifier, origin, amounts, account
    and creation time, and nothing else set. *)
Definition credit_row_at (key : Z) (cfs : option string) (memo : bool)
    (a r : float) (account : Z) (t : datetime) : Credit :=
  {| id := key;
     cfs_identifier := cfs;
     cfs_site := None;
     is_credit_memo := Some memo;
     amount := a;
     remaining_amount := r;
     details := None;
     created_on := Some t;
     created_invoice_id := None;
     account_id := Some account |}.

(** The same, created at time 0. *)
Definition credit_row (key : Z) (cfs : option string) (memo : bool)
    (a r : float) (account : Z) : Credit :=
  credit_row_at key cfs memo a r account 0.

(** A store that holds the given rows, the accounts 5 and 7 and invoice 7. *)
Definition store (rows : list Credit) : DB :=
  {| credits := rows;
     payment_accounts := [5; 7];
     invoices := [7];
     cfs_accounts := ["PAD"%string];
     credits_id_seq := 1 + Z.of_nat (List.length rows) |}.

(** Account 5 holds two credits with 0.1 and 0.2 left. *)
Definition store_tenths : DB :=
  store [ credit_row 1 None false f0_1 f0_1 5; credit_row 2 None false f0_2 f0_2 5 ].

(** Account 7 holds two credits with 1.1 and 2.2 left. *)
Definition store_elevenths : DB :=
  store [ credit_row 1 None false f1_1 f1_1 7; credit_row 2 None false f2_2 f2_2 7 ].

(** The specification's scenario: account 5 holds 25.50 and 74.50. *)
Definition store_scenario : DB :=
  store [ credit_row 1 None false 25.5 25.5 5; credit_row 2 None false 74.5 74.5 5 ].

(** Two rows that carry the same external identifier and origin. *)
Definition store_duplicates : DB :=
  store [ credit_row 1 (Some "CM-1"%string) true 10 10 5;
          credit_row 2 (Some "CM-1"%string) true 20 20 7 ].

(** Constructor arguments that give the two amounts, the account and, or
    not, a creation time. *)
Definition init_amounts (a r : option float) (account : Z) (t : option datetime)
    : Init.t :=
  {| Init.id := None;
     Init.cfs_identifier := None;
     Init.cfs_site := None;
     Init.is_credit_memo := None;
     Init.amount := a;
     Init.remaining_amount := r;
     Init.details := None;
     Init.created_on := t;
     Init.created_invoice_id := None;
     Init.account_id := Some account |}.

(** Constructor arguments that give an external identifier and, or not, an
    origin, with the two amounts and the account. *)
Definition init_external (cfs : string) (memo : option bool) (a r : float)
    (account : Z) : Init.t :=
  {| Init.id := None;
     Init.cfs_identifier := Some cfs;
     Init.cfs_site := None;
     Init.is_credit_memo := memo;
     Init.amount := Some a;
     Init.remaining_amount := Some r;
     Init.details := None;
     Init.created_on := None;
     Init.created_invoice_id := None;
     Init.account_id := Some account |}.

(** An identifier of 51 characters, one more than the column holds. *)
Definition long_identifier : string :=
  "CM-000000000000000000000000000000000000000000000001".


(** ** Lemmas on the queries *)

Section Queries.

Variable db : DB.
Variables (cfs : string) (memo : bool).

Lemma sql_eq_string (v : option string) (s : string) :
  sql_eq String.eqb v s = true <-> v = Some s.
Proof.
  destruct v as [t|]; simpl.
  - rewrite String.eqb_eq. split; congruence.
  - split; discriminate.
Qed.

Lemma sql_eq_bool (v : option bool) (b : bool) :
  sql_eq Bool.eqb v b = true <-> v = Some b.
Proof.
  destruct v as [t|]; simpl.
  - rewrite Bool.eqb_true_iff. split; congruence.
  - split; discriminate.
Qed.

Lemma has_pairb_spec (c : Credit) : has_pairb cfs memo c = true <-> has_pair cfs memo c.
Proof.
  unfold has_pairb, has_pair.
  rewrite andb_true_iff, sql_eq_string, sql_eq_bool. tauto.
Qed.

(** The two chained [filter_by] clauses select the rows with the pair. *)
Lemma chained_filters (rows : list Credit) :
  filter_by_is_credit_memo memo (filter_by_cfs_identifier cfs rows)
  = filter (has_pairb cfs memo) rows.
Proof.
  unfold filter_by_is_credit_memo, filter_by_cfs_identifier, has_pairb.
  induction rows as [|c rows IH]; simpl; [reflexivity|].
  destruct (sql_eq String.eqb (cfs_identifier c) cfs); simpl.
  - destruct (sql_eq Bool.eqb (is_credit_memo c) memo); rewrite IH; reflexivity.
  - exact IH.
Qed.

Lemma find_by_cfs_identifier_rows :
  find_by_cfs_identifier db cfs memo = one_or_none (rows_with_pair db cfs memo).
Proof. unfold find_by_cfs_identifier, rows_with_pair. now rewrite chained_filters. Qed.

End Queries.

(** Two rows at different places of a list that pass a filter leave at least
    two rows in its result. *)
Lemma filter_two {A : Type} (f : A -> bool) (l : list A) :
  forall (i j : nat) (a b : A),
    i <> j -> nth_error l i = Some a -> nth_error l j = Some b ->
    f a = true -> f b = true ->
    (2 <= List.length (filter f l))%nat.
Proof.
  assert (one : forall (l0 : list A) (n : nat) (x : A),
             nth_error l0 n = Some x -> f x = true ->
             (1 <= List.length (filter f l0))%nat).
  { induction l0 as [|y l0 IH]; intros [|n] x Hn Hx; simpl in *; try discriminate.
    - injection Hn as ->. rewrite Hx. simpl. lia.
    - specialize (IH n x Hn Hx). destruct (f y); simpl; lia. }
  induction l as [|y l IH]; intros [|i] [|j] a b Hij Hi Hj Ha Hb;
    simpl in *; try discriminate; try congruence.
  - injection Hi as ->. rewrite Ha. simpl.
    pose proof (one l j b Hj Hb). lia.
  - injection Hj as ->. rewrite Hb. simpl.
    pose proof (one l i a Hi Ha). lia.
  - assert (Hne : i <> j) by congruence.
    specialize (IH i j a b Hne Hi Hj Ha Hb).
    destruct (f y); simpl; lia.
Qed.

Lemma one_or_none_many {A : Type} (l : list A) :
  (2 <= List.length l)%nat -> one_or_none l = Raise MultipleResultsFound.
Proof. destruct l as [|a [|b l]]; simpl; intros; try lia; reflexivity. Qed.

(** A filter applied after a weaker one selects what it selects alone. *)
Lemma filter_absorb {A : Type} (f g : A -> bool) (l : list A) :
  (forall x, f x = true -> g x = true) ->
  filter f (filter g l) = filter f l.
Proof.
  intros Hfg. induction l as [|x l IH]; simpl; [reflexivity|].
  destruct (g x) eqn:Hg; simpl.
  - now rewrite IH.
  - destruct (f x) eqn:Hf; [|exact IH].
    apply Hfg in Hf. congruence.
Qed.

(** What [find_by_cfs_identifier] returns, by the rows that carry the pair. *)
Lemma find_by_cfs_identifier_cases (db : DB) (cfs : string) (memo : bool) :
  match find_by_cfs_identifier db cfs memo with
  | Ok None => rows_with_pair db cfs memo = []
  | Ok (Some c) =>
      rows_with_pair db cfs memo = [c] /\ In c db.(credits) /\ has_pair cfs memo c
  | Raise e =>
      e = MultipleResultsFound /\ (2 <= List.length (rows_with_pair db cfs memo))%nat
  end.
Proof.
  rewrite find_by_cfs_identifier_rows.
  destruct (rows_with_pair db cfs memo) as [|c [|c' rows]] eqn:E; simpl.
  - reflexivity.
  - assert (Hin : In c (rows_with_pair db cfs memo)) by (rewrite E; now left).
    unfold rows_with_pair in Hin. apply filter_In in Hin as [Hin Hc].
    apply has_pairb_spec in Hc. auto.
  - split; [reflexivity | lia].
Qed.

(** A filter that keeps nothing has met no row that passes, and conversely. *)
Lemma filter_nil_iff {A : Type} (f : A -> bool) (l : list A) :
  filter f l = [] <-> (forall x, In x l -> f x = false).
Proof.
  induction l as [|y l IH]; cbn [filter In].
  - split; [intros _ x [] | reflexivity].
  - destruct (f y) eqn:Hy.
    + split; [discriminate|]. intros H. specialize (H y (or_introl eq_refl)).
      congruence.
    + rewrite IH. split.
      * intros H x [<-|Hx]; [exact Hy | now apply H].
      * intros H x Hx. apply H. now right.
Qed.

(** A filter that keeps one row has met it at one place, and no row that
    passes at any other place. *)
Lemma filter_one_inv {A : Type} (f : A -> bool) (l : list A) (c : A) :
  filter f l = [c] ->
  exists i : nat,
    nth_error l i = Some c /\ f c = true
    /\ (forall (j : nat) (c' : A), j <> i -> nth_error l j = Some c' -> f c' = false).
Proof.
  induction l as [|y l IH]; cbn [filter]; [discriminate|].
  destruct (f y) eqn:Hy.
  - intros H. injection H as -> Hrest. exists 0%nat. repeat split; [exact Hy|].
    intros [|j] c' Hj Hc'; [congruence|]. cbn [nth_error] in Hc'.
    apply nth_error_In in Hc'. revert c' Hc'. now apply filter_nil_iff.
  - intros H. destruct (IH H) as (i & Hi & Hc & Hothers).
    exists (S i). repeat split; [exact Hi | exact Hc |].
    intros [|j] c' Hj Hc'; cbn [nth_error] in Hc'.
    + injection Hc' as <-. exact Hy.
    + apply (Hothers j); [congruence | exact Hc'].
Qed.

(** A row that passes at one place, and none that passes at any other place:
    the filter keeps that row and no other. *)
Lemma filter_one {A : Type} (f : A -> bool) (l : list A) :
  forall (i : nat) (c : A),
    nth_error l i = Some c -> f c = true ->
    (forall (j : nat) (c' : A), j <> i -> nth_error l j = Some c' -> f c' = false) ->
    filter f l = [c].
Proof.
  induction l as [|y l IH]; intros [|i] c Hi Hc Hothers; cbn [nth_error] in Hi;
    try discriminate; cbn [filter].
  - injection Hi as ->. rewrite Hc. f_equal. apply filter_nil_iff.
    intros x Hx. apply In_nth_error in Hx as [j Hj].
    apply (Hothers (S j)); [discriminate | exact Hj].
  - rewrite (Hothers 0%nat y); [|discriminate|reflexivity].
    apply (IH i c Hi Hc). intros j c' Hj Hc'.
    apply (Hothers (S j)); [congruence | exact Hc'].
Qed.

(** A filter that keeps two rows or more has met rows that pass at two
    different places. *)
Lemma filter_two_inv {A : Type} (f : A -> bool) (l : list A) :
  (2 <= List.length (filter f l))%nat ->
  exists (i j : nat) (a b : A),
    i <> j /\ nth_error l i = Some a /\ nth_error l j = Some b
    /\ f a = true /\ f b = true.
Proof.
  assert (one : forall l0 : list A,
             (1 <= List.length (filter f l0))%nat ->
             exists (j : nat) (b : A), nth_error l0 j = Some b /\ f b = true).
  { induction l0 as [|y l0 IH]; cbn [filter List.length]; [lia|].
    destruct (f y) eqn:Hy.
    - intros _. now exists 0%nat, y.
    - intros H. destruct (IH H) as (j & b & Hj & Hb). now exists (S j), b. }
  induction l as [|y l IH]; cbn [filter List.length]; [lia|].
  destruct (f y) eqn:Hy; cbn [List.length]; intros H.
  - destruct (one l) as (j & b & Hj & Hb); [lia|].
    exists 0%nat, (S j), y, b. repeat split; try assumption. discriminate.
  - destruct (IH H) as (i & j & a & b & Hij & Hi & Hj & Ha & Hb).
    exists (S i), (S j), a, b. repeat split; try assumption. congruence.
Qed.


(** ** [find_by_cfs_identifier] *)

(** C3. [find_by_cfs_identifier] returns at most one record, and says so
    of the rows themselves. When no row of the table carries the pair it
    returns [None], and raises nothing. When one row carries the pair, and no
    row at any other place of the table does, it returns that row. What it
    returns is told by the table: [None] only when no row carries the pair; a
    record only when that record is a row that carries the pair and no row at
    another place does; and it raises only [MultipleResultsFound], and only
    when rows at two different places carry the pair. *)
Theorem find_by_cfs_identifier_at_most_one (db : DB) (cfs : string) (memo : bool) :
  ((forall c, In c db.(credits) -> ~ has_pair cfs memo c) ->
   find_by_cfs_identifier db cfs memo = Ok None)
  /\ (forall (i : nat) (c : Credit),
        nth_error db.(credits) i = Some c ->
        has_pair cfs memo c ->
        (forall (j : nat) (c' : Credit),
            j <> i -> nth_error db.(credits) j = Some c' -> ~ has_pair cfs memo c') ->
        find_by_cfs_identifier db cfs memo = Ok (Some c))
  /\ match find_by_cfs_identifier db cfs memo with
     | Ok None => forall c, In c db.(credits) -> ~ has_pair cfs memo c
     | Ok (Some c) =>
         exists i : nat,
           nth_error db.(credits) i = Some c
           /\ has_pair cfs memo c
           /\ (forall (j : nat) (c' : Credit),
                  j <> i -> nth_error db.(credits) j = Some c' ->
                  ~ has_pair cfs memo c')
     | Raise e =>
         e = MultipleResultsFound
         /\ exists (i j : nat) (ci cj : Credit),
              i <> j
              /\ nth_error db.(credits) i = Some ci
              /\ nth_error db.(credits) j = Some cj
              /\ has_pair cfs memo ci /\ has_pair cfs memo cj
     end.
Proof.
  assert (Hno : forall c, has_pairb cfs memo c = false <-> ~ has_pair cfs memo c).
  { intros c. rewrite <- has_pairb_spec. now destruct (has_pairb cfs memo c). }
  rewrite find_by_cfs_identifier_rows. unfold rows_with_pair.
  split; [|split].
  - intros Hnone.
    replace (filter (has_pairb cfs memo) (credits db)) with (@nil Credit);
      [reflexivity|].
    symmetry. apply filter_nil_iff. intros c Hc. apply Hno. now apply Hnone.
  - intros i c Hi Hc Hothers.
    rewrite (@filter_one _ (has_pairb cfs memo) (credits db) i c Hi);
      [reflexivity | now apply has_pairb_spec |].
    intros j c' Hj Hc'. apply Hno. now apply (Hothers j).
  - destruct (filter (has_pairb cfs memo) (credits db)) as [|c [|c' rows]] eqn:E;
      cbn [one_or_none].
    + intros c Hc. apply Hno. revert c Hc. now apply filter_nil_iff.
    + apply filter_one_inv in E as (i & Hi & Hc & Hothers).
      exists i. split; [exact Hi|]. split; [now apply has_pairb_spec|].
      intros j c' Hj Hc'. apply Hno. now apply (Hothers j).
    + split; [reflexivity|].
      destruct (@filter_two_inv _ (has_pairb cfs memo) (credits db))
        as (i & j & ci & cj & Hij & Hi & Hj & Hci & Hcj).
      { rewrite E. cbn [List.length]. lia. }
      apply has_pairb_spec in Hci. apply has_pairb_spec in Hcj.
      exists i, j, ci, cj. tauto.
Qed.

(** C9. When two rows at different places of the table carry the same pair,
    [find_by_cfs_identifier] for that pair raises [MultipleResultsFound]. *)
Theorem find_by_cfs_identifier_duplicates_raise (db : DB) (cfs : string)
    (memo : bool) (i j : nat) (ci cj : Credit) :
  i <> j ->
  nth_error db.(credits) i = Some ci ->
  nth_error db.(credits) j = Some cj ->
  has_pair cfs memo ci ->
  has_pair cfs memo cj ->
  find_by_cfs_identifier db cfs memo = Raise MultipleResultsFound.
Proof.
  intros Hij Hi Hj Hci Hcj.
  rewrite find_by_cfs_identifier_rows.
  apply one_or_none_many. unfold rows_with_pair.
  apply (filter_two (has_pairb cfs memo) db.(credits) Hij Hi Hj);
    now apply has_pairb_spec.
Qed.

Lemma find_by_cfs_identifier_duplicates_raise_example :
  find_by_cfs_identifier store_duplicates "CM-1" true = Raise MultipleResultsFound.
Proof.
  apply (@find_by_cfs_identifier_duplicates_raise store_duplicates "CM-1" true
           0%nat 1%nat
           (credit_row 1 (Some "CM-1"%string) true 10 10 5)
           (credit_row 2 (Some "CM-1"%string) true 20 20 7)).
  - discriminate.
  - reflexivity.
  - reflexivity.
  - split; reflexivity.
  - split; reflexivity.
Defined.

(** C10. Called without [credit_memo], [find_by_cfs_identifier] looks for the
    pair with [is_credit_memo = False]: a record it returns is not a credit
    memo, and the credit-memo rows of the table have no part in the answer,
    which is the one the table without them gives. *)
Theorem find_by_cfs_identifier_default_not_memo (db : DB) (cfs : string) :
  find_by_cfs_identifier_default db cfs = find_by_cfs_identifier db cfs false
  /\ match find_by_cfs_identifier_default db cfs with
     | Ok (Some c) => c.(is_credit_memo) = Some false /\ c.(cfs_identifier) = Some cfs
     | _ => True
     end
  /\ find_by_cfs_identifier_default db cfs
     = find_by_cfs_identifier_default (without_credit_memos db) cfs.
Proof.
  split; [reflexivity|]. split.
  - unfold find_by_cfs_identifier_default.
    pose proof (find_by_cfs_identifier_cases db cfs false) as H.
    destruct (find_by_cfs_identifier db cfs false) as [[c|]|e]; auto.
    destruct H as (_ & _ & Hc & Hm). auto.
  - unfold find_by_cfs_identifier_default.
    rewrite !find_by_cfs_identifier_rows. f_equal.
    unfold rows_with_pair, without_credit_memos; simpl.
    apply eq_sym, filter_absorb.
    intros c Hc. apply has_pairb_spec in Hc as [_ Hm]. now rewrite Hm.
Qed.

(** ** What [Decimal] reads of what [str] writes *)

Lemma digit_of_digit_char (d : Z) : 0 <= d < 10 -> digit_of (digit_char d) = Some d.
Proof.
  intros H.
  assert (E : d = 0 \/ d = 1 \/ d = 2 \/ d = 3 \/ d = 4 \/ d = 5 \/ d = 6
              \/ d = 7 \/ d = 8 \/ d = 9) by lia.
  repeat (destruct E as [-> | E]; [reflexivity|]). now subst.
Qed.

Lemma digit_of_range (a : ascii) (d : Z) : digit_of a = Some d -> 0 <= d <= 9.
Proof.
  unfold digit_of. cbv zeta.
  destruct ((48 <=? Z.of_nat (nat_of_ascii a)) && (Z.of_nat (nat_of_ascii a) <=? 57))
    eqn:E; [|discriminate].
  intros H. injection H as <-. apply andb_true_iff in E as [E1 E2].
  apply Z.leb_le in E1. apply Z.leb_le in E2. lia.
Qed.

Lemma all_digits_app (s t : string) :
  all_digits (s ++ t) = all_digits s && all_digits t.
Proof.
  induction s as [|a s IH]; simpl; [reflexivity|].
  destruct (digit_of a); [exact IH | reflexivity].
Qed.

Lemma digits_string_digits (n : nat) :
  forall (c : Z) (acc : string),
    all_digits acc = true -> all_digits (digits_string n c acc) = true.
Proof.
  induction n as [|n IH]; intros c acc Hacc; simpl; [exact Hacc|].
  apply IH. cbn [all_digits].
  rewrite digit_of_digit_char by (apply Z.mod_pos_bound; lia). exact Hacc.
Qed.

Lemma digits_string_length (n : nat) :
  forall (c : Z) (acc : string),
    String.length (digits_string n c acc) = (n + String.length acc)%nat.
Proof.
  induction n as [|n IH]; intros c acc; simpl; [reflexivity|].
  rewrite IH. simpl. lia.
Qed.

Lemma zeros_digits (n : nat) : all_digits (zeros n) = true.
Proof. induction n as [|n IH]; simpl; [reflexivity | exact IH]. Qed.

Lemma zeros_length (n : nat) : String.length (zeros n) = n.
Proof. induction n as [|n IH]; simpl; congruence. Qed.

Lemma substring_digits (s : string) :
  forall n m : nat, all_digits s = true -> all_digits (substring n m s) = true.
Proof.
  induction s as [|a s IH]; intros [|n] [|m] H; simpl in *; try reflexivity.
  - destruct (digit_of a); [now apply IH | discriminate].
  - destruct (digit_of a); [now apply IH | discriminate].
  - destruct (digit_of a); [now apply IH | discriminate].
Qed.

Lemma substring_length_le (s : string) :
  forall n m : nat, (String.length (substring n m s) <= m)%nat.
Proof.
  induction s as [|a s IH]; intros [|n] [|m]; simpl; try lia.
  - specialize (IH 0%nat m). lia.
  - apply IH.
  - apply IH.
Qed.

Lemma string_app_empty (s : string) : (s ++ EmptyString)%string = s.
Proof. induction s as [|a s IH]; simpl; congruence. Qed.

Lemma string_app_assoc (s t u : string) : ((s ++ t) ++ u)%string = (s ++ t ++ u)%string.
Proof. induction s as [|a s IH]; simpl; congruence. Qed.

Lemma string_app_length (s t : string) :
  String.length (s ++ t) = (String.length s + String.length t)%nat.
Proof. induction s as [|a s IH]; simpl; congruence. Qed.

(** The digits of two texts, one after the other. *)
Lemma digits_value_app (s t : string) :
  all_digits s = true ->
  forall acc : Z, digits_value acc (s ++ t) = digits_value (digits_value acc s) t.
Proof.
  induction s as [|a s IH]; intros Hs acc; cbn [append digits_value]; [reflexivity|].
  cbn [all_digits] in Hs. destruct (digit_of a); [now apply IH | discriminate].
Qed.

(** A text of [n] digits writes a number below [10^n]. *)
Lemma digits_value_bounds (s : string) :
  all_digits s = true ->
  forall acc : Z,
    0 <= acc ->
    acc * 10 ^ Z.of_nat (String.length s) <= digits_value acc s
    /\ digits_value acc s < (acc + 1) * 10 ^ Z.of_nat (String.length s).
Proof.
  induction s as [|a s IH]; intros Hs acc Hacc; cbn [String.length digits_value].
  - cbn [Z.of_nat]. rewrite Z.pow_0_r. lia.
  - cbn [all_digits] in Hs. destruct (digit_of a) as [d|] eqn:Ha; [|discriminate].
    apply digit_of_range in Ha.
    destruct (IH Hs (10 * acc + d)) as [Hlo Hhi]; [lia|].
    rewrite Nat2Z.inj_succ, Z.pow_succ_r by lia.
    assert (Hpow : 0 < 10 ^ Z.of_nat (String.length s)) by (apply Z.pow_pos_nonneg; lia).
    split; nia.
Qed.

Lemma digits_value_zeros (n : nat) (s : string) :
  digits_value 0 (zeros n ++ s) = digits_value 0 s.
Proof. induction n as [|n IH]; [reflexivity | exact IH]. Qed.

(** A text of 17 digits at most writes a number below [10^17]. *)
Lemma coefficient_bound (s : string) :
  all_digits s = true -> (String.length s <= 17)%nat ->
  0 <= digits_value 0 s < 10 ^ 17.
Proof.
  intros Hs Hlen. destruct (@digits_value_bounds s Hs 0) as [Hlo Hhi]; [lia|].
  assert (Hpow : 10 ^ Z.of_nat (String.length s) <= 10 ^ 17)
    by (apply Z.pow_le_mono_r; lia).
  lia.
Qed.

(** A run of digits is read to its end. *)
Lemma read_digits_app (s t : string) :
  all_digits s = true -> stops_digits t = true ->
  forall acc count : Z,
    read_digits (s ++ t) acc count
    = (digits_value acc s, count + Z.of_nat (String.length s), t).
Proof.
  intros Hs Ht. induction s as [|a s IH]; intros acc count.
  - cbn [append String.length Z.of_nat digits_value]. rewrite Z.add_0_r.
    destruct t as [|b t]; [reflexivity|].
    cbn [stops_digits] in Ht. cbn [read_digits].
    destruct (digit_of b); [discriminate | reflexivity].
  - cbn [all_digits] in Hs. cbn [append read_digits digits_value].
    destruct (digit_of a) as [d|]; [|discriminate].
    rewrite (IH Hs). f_equal. f_equal.
    cbn [String.length]. lia.
Qed.

Lemma read_digits_all (s : string) :
  all_digits s = true ->
  forall acc count : Z,
    read_digits s acc count
    = (digits_value acc s, count + Z.of_nat (String.length s), EmptyString).
Proof.
  intros Hs acc count.
  pose proof (@read_digits_app s EmptyString Hs eq_refl acc count) as H.
  now rewrite string_app_empty in H.
Qed.

(** What a digit is not. *)
Lemma digit_not_mark (a : ascii) (d : Z) :
  digit_of a = Some d ->
  (forall r, read_sign (String a r) = (false, String a r))
  /\ Ascii.eqb a "i" = false /\ Ascii.eqb a "n" = false.
Proof.
  destruct a as [[] [] [] [] [] [] [] []]; vm_compute; intros H;
    try discriminate; repeat split.
Qed.

(** [Decimal] reads every text made of a sign or none, one digit at least, a
    fraction or none and an exponent or none: the sign is the sign written,
    and the coefficient the number that the digits of the integer part and of
    the fraction write, one after the other. *)
Lemma Decimal_of_string_number (neg : bool) (a : ascii) (d0 : Z) (ip : string)
    (frac : option string) (ex : option (bool * string)) :
  digit_of a = Some d0 ->
  all_digits ip = true ->
  opt_digits frac = true ->
  exp_digits ex = true ->
  exists e : Z,
    Decimal_of_string
      (if neg then String "-" (String a (ip ++ number_tail frac ex))
       else String a (ip ++ number_tail frac ex))
    = Ok (Dec neg
            (digits_value 0
               (String a (ip ++ match frac with
                                | Some fp => fp
                                | None => EmptyString
                                end)))
            e).
Proof.
  intros Ha Hip Hfrac Hex.
  destruct (@digit_not_mark a d0 Ha) as (Hsign & Hi & Hn).
  assert (Hstop : stops_digits (number_tail frac ex) = true).
  { destruct frac as [fp|], ex as [[eneg digs]|]; reflexivity. }
  assert (Hint : all_digits (String a ip) = true).
  { cbn [all_digits]. now rewrite Ha. }
  pose proof (@read_digits_app (String a ip) (number_tail frac ex) Hint Hstop 0 0)
    as Hv.
  cbn [append] in Hv.
  assert (Hcoef : digits_value 0
                    (String a (ip ++ match frac with
                                     | Some fp => fp
                                     | None => EmptyString
                                     end))
                  = match frac with
                    | Some fp => digits_value (digits_value 0 (String a ip)) fp
                    | None => digits_value 0 (String a ip)
                    end).
  { destruct frac as [fp|].
    - change (String a (ip ++ fp)) with (String a ip ++ fp)%string.
      now apply digits_value_app.
    - now rewrite string_app_empty. }
  rewrite Hcoef. clear Hcoef.
  set (v := digits_value 0 (String a ip)) in *.
  unfold Decimal_of_string.
  replace (read_sign (if neg then String "-" (String a (ip ++ number_tail frac ex))
                      else String a (ip ++ number_tail frac ex)))
    with (neg, String a (ip ++ number_tail frac ex))
    by (destruct neg; [reflexivity | now rewrite Hsign]).
  cbv beta iota.
  cbn [String.eqb]. rewrite Hi, Hn. cbn [andb].
  rewrite Hv. cbv beta iota.
  set (ni := 0 + Z.of_nat (String.length (String a ip))).
  assert (Hni : 0 < ni) by (unfold ni; cbn [String.length]; lia).
  clearbody ni v. clear Hv.
  assert (Hexp : forall (c nf : Z) (eneg : bool) (digs : string),
             0 <= nf -> all_digits digs = true -> String.eqb digs EmptyString = false ->
             exists e : Z,
               (if ni + nf =? 0 then Raise InvalidOperation
                else
                  if is_exponent_mark "e" then
                    let '(eneg0, r1) := read_sign ((if eneg then "-" else "+") ++ digs) in
                    let '(ev, ne, r2) := read_digits r1 0 0 in
                    if (ne =? 0) || negb (String.eqb r2 EmptyString)
                    then Raise InvalidOperation
                    else Ok (Dec neg c ((if eneg0 then - ev else ev) - nf))
                  else Raise InvalidOperation) = Ok (Dec neg c e)).
  { intros c nf eneg digs Hnf Hdigs Hne.
    replace (ni + nf =? 0) with false by (symmetry; apply Z.eqb_neq; lia).
    replace (read_sign ((if eneg then "-" else "+") ++ digs)) with (eneg, digs)
      by (now destruct eneg).
    cbv beta iota.
    rewrite (@read_digits_all digs Hdigs 0 0).
    cbv beta iota.
    replace (0 + Z.of_nat (String.length digs) =? 0) with false.
    - cbn. eexists. reflexivity.
    - symmetry. apply Z.eqb_neq. destruct digs; [discriminate|].
      cbn [String.length]. lia. }
  destruct frac as [fp|], ex as [[eneg digs]|]; cbn [number_tail append].
  - cbn [opt_digits] in Hfrac. cbn [exp_digits] in Hex.
    apply andb_true_iff in Hex as [Hdigs Hne]. apply negb_true_iff in Hne.
    assert (Hst : stops_digits (String "e" ((if eneg then "-" else "+") ++ digs)) = true)
      by reflexivity.
    rewrite (@read_digits_app fp _ Hfrac Hst v 0).
    cbv beta iota. apply Hexp; [lia | exact Hdigs | exact Hne].
  - cbn [opt_digits] in Hfrac. rewrite string_app_empty.
    rewrite (@read_digits_all fp Hfrac v 0). cbv beta iota.
    replace (ni + (0 + Z.of_nat (String.length fp)) =? 0) with false
      by (symmetry; apply Z.eqb_neq; lia).
    eexists. reflexivity.
  - cbn [exp_digits] in Hex.
    apply andb_true_iff in Hex as [Hdigs Hne]. apply negb_true_iff in Hne.
    cbv beta iota. apply Hexp; [lia | exact Hdigs | exact Hne].
  - cbv beta iota.
    replace (ni + 0 =? 0) with false by (symmetry; apply Z.eqb_neq; lia).
    eexists. reflexivity.
Qed.

Lemma digits_string_head (n : nat) (c : Z) :
  (1 <= n)%nat ->
  exists (a : ascii) (d : Z) (rest : string),
    digits_string n c EmptyString = String a rest
    /\ digit_of a = Some d /\ all_digits rest = true.
Proof.
  intros Hn.
  pose proof (@digits_string_digits n c EmptyString eq_refl) as Hd.
  pose proof (digits_string_length n c EmptyString) as Hl.
  destruct (digits_string n c EmptyString) as [|a rest].
  - cbn [String.length] in Hl. lia.
  - cbn [all_digits] in Hd. destruct (digit_of a) as [d|] eqn:Ha; [|discriminate].
    now exists a, d, rest.
Qed.

Lemma nat_string_digits (width : nat) (n : Z) :
  (1 <= width)%nat ->
  all_digits (nat_string width n) && negb (String.eqb (nat_string width n) EmptyString)
  = true.
Proof.
  intros Hw. unfold nat_string.
  destruct (@digits_string_head (Nat.max width (num_digits 20 n)) n)
    as (a & d & rest & -> & Ha & Hrest); [lia|].
  cbn [all_digits String.eqb]. now rewrite Ha, Hrest.
Qed.

(** [Decimal] reads whatever [format_repr] writes with one digit at least and
    seventeen at most, as a number of that sign whose coefficient is below
    [10^17]. *)
Lemma format_repr_parses (neg : bool) (c decpt n : Z) :
  1 <= n <= 17 ->
  exists c' e : Z,
    Decimal_of_string (format_repr neg c decpt n) = Ok (Dec neg c' e)
    /\ 0 <= c' < 10 ^ 17.
Proof.
  intros Hn. unfold format_repr.
  destruct (@digits_string_head (Z.to_nat n) c) as (a & d0 & rest & Hds & Ha & Hrest);
    [lia|].
  pose proof (digits_string_length (Z.to_nat n) c EmptyString) as Hlen.
  rewrite Hds in *. cbn [String.length] in Hlen.
  assert (Hall : all_digits (String a rest) = true)
    by (cbn [all_digits]; now rewrite Ha).
  cbv zeta.
  destruct ((decpt <=? -4) || (16 <? decpt)) eqn:Hform.
  - pose proof (@nat_string_digits 2 (Z.abs (decpt - 1)) (le_S _ _ (le_n 1))) as Hex.
    destruct rest as [|b r].
    + destruct (@Decimal_of_string_number neg a d0 EmptyString None
                  (Some (decpt - 1 <? 0, nat_string 2 (Z.abs (decpt - 1))))
                  Ha eq_refl eq_refl Hex) as [e He].
      eexists. exists e. split; [exact He|].
      apply coefficient_bound; [exact Hall | cbn [append String.length]; lia].
    + destruct (@Decimal_of_string_number neg a d0 EmptyString (Some (String b r))
                  (Some (decpt - 1 <? 0, nat_string 2 (Z.abs (decpt - 1))))
                  Ha eq_refl Hrest Hex) as [e He].
      eexists. exists e. split; [exact He|].
      apply coefficient_bound; [exact Hall | cbn [append String.length] in *; lia].
  - apply orb_false_iff in Hform as [_ Hmax]. apply Z.ltb_ge in Hmax.
    destruct (decpt <=? 0) eqn:Hdec.
    + assert (Hfp : all_digits (zeros (Z.to_nat (- decpt)) ++ String a rest) = true).
      { now rewrite all_digits_app, zeros_digits, Hall. }
      destruct (@Decimal_of_string_number neg "0" 0 EmptyString
                  (Some (zeros (Z.to_nat (- decpt)) ++ String a rest)%string) None
                  eq_refl eq_refl Hfp eq_refl) as [e He].
      cbn [number_tail append] in He. rewrite string_app_empty in He.
      eexists. exists e. split; [exact He|].
      change (String "0" (zeros (Z.to_nat (- decpt)) ++ String a rest))
        with (zeros (S (Z.to_nat (- decpt))) ++ String a rest)%string.
      rewrite digits_value_zeros.
      apply coefficient_bound; [exact Hall | cbn [String.length]; lia].
    + apply Z.leb_gt in Hdec. destruct (n <=? decpt) eqn:Hnd.
      * apply Z.leb_le in Hnd.
        assert (Hip : all_digits (rest ++ zeros (Z.to_nat (decpt - n))) = true).
        { now rewrite all_digits_app, zeros_digits, Hrest. }
        destruct (@Decimal_of_string_number neg a d0
                    (rest ++ zeros (Z.to_nat (decpt - n)))%string
                    (Some "0"%string) None Ha Hip eq_refl eq_refl) as [e He].
        cbn [number_tail append] in He. rewrite string_app_assoc in He.
        eexists. exists e. split; [exact He|].
        apply coefficient_bound.
        -- cbn [all_digits]. rewrite Ha, !all_digits_app, Hrest, zeros_digits.
           reflexivity.
        -- cbn [String.length]. rewrite !string_app_length, zeros_length.
           cbn [String.length]. lia.
      * apply Z.leb_gt in Hnd.
        destruct (Z.to_nat decpt) as [|k] eqn:Hk; [lia|].
        cbn [substring].
        assert (Hip : all_digits (substring 0 k rest) = true)
          by now apply substring_digits.
        assert (Hfp : all_digits (substring k (Z.to_nat (n - decpt)) rest) = true)
          by now apply substring_digits.
        destruct (@Decimal_of_string_number neg a d0 (substring 0 k rest)
                    (Some (substring k (Z.to_nat (n - decpt)) rest)) None
                    Ha Hip Hfp eq_refl) as [e He].
        cbn [number_tail append] in He. rewrite string_app_empty in He.
        eexists. exists e. split; [exact He|].
        apply coefficient_bound.
        -- cbn [all_digits]. now rewrite Ha, all_digits_app, Hip, Hfp.
        -- cbn [String.length]. rewrite string_app_length.
           pose proof (substring_length_le rest 0 k).
           pose proof (substring_length_le rest k (Z.to_nat (n - decpt))).
           lia.
Qed.

Lemma sig_digits_count (c decpt p : Z) : snd (F64.sig_digits c decpt p) = p.
Proof. unfold F64.sig_digits. now destruct (c =? 10 ^ p). Qed.

(** The shortest digits are one digit at least, and as many at most as the
    search goes on. *)
Lemma shortest_count (fuel : nat) :
  forall (p : Z) (ax : float) (m : positive) (num den decpt0 : Z),
    p <= snd (F64.shortest fuel p ax m num den decpt0) <= p + Z.of_nat fuel.
Proof.
  induction fuel as [|fuel IH]; intros p ax m num den decpt0; cbn [F64.shortest];
    destruct (F64.truncate_sig num den decpt0 p) as [c half].
  - rewrite sig_digits_count. lia.
  - cbv zeta.
    destruct (F64.rounds_to (F64.dec_value c (decpt0 - p)) ax m),
      (F64.rounds_to (F64.dec_value (c + 1) (decpt0 - p)) ax m);
      cbn [andb]; rewrite ?sig_digits_count; try lia.
    specialize (IH (p + 1) ax m num den decpt0). lia.
Qed.

(** What [Decimal] reads of what [str] writes for a float: a number whose
    coefficient has seventeen digits at most, an infinity or NaN;
    [Decimal(str(x))] never raises. *)
Lemma float_str_digits (x : float) :
  match Decimal_of_string (float_str x) with
  | Ok (Dec _ c _) => 0 <= c < 10 ^ 17
  | Ok _ => True
  | Raise _ => False
  end.
Proof.
  unfold float_str. destruct (Prim2SF x) as [s|s| |s m e].
  - replace (Decimal_of_string (if s then "-0.0" else "0.0"))
      with (Ok (Dec s 0 (-1))) by (now destruct s).
    lia.
  - replace (Decimal_of_string (if s then "-inf" else "inf"))
      with (Ok (DecInfinity s)) by (now destruct s).
    exact I.
  - exact I.
  - unfold F64.digits. destruct (F64.ratio m e) as [num den].
    pose proof (shortest_count 16 1 (abs x) m num den (F64.decpt_of num den)) as Hp.
    destruct (F64.shortest 16 1 (abs x) m num den (F64.decpt_of num den))
      as [[c decpt] n].
    cbn [snd] in Hp.
    destruct (@format_repr_parses s c decpt n) as (c' & e' & -> & Hc'); [lia|].
    exact Hc'.
Qed.

Lemma float_str_parses (x : float) :
  exists d : Decimal, Decimal_of_string (float_str x) = Ok d.
Proof.
  pose proof (float_str_digits x) as H.
  destruct (Decimal_of_string (float_str x)) as [d|e]; [now exists d | contradiction].
Qed.

(** ** [find_remaining_by_account_id] *)

(** The literals above are the doubles nearest to 1/10, 2/10, 11/10 and
    22/10: a correctly rounded division gives them. *)
Lemma literals_nearest :
  (1 / 10 = f0_1 /\ 2 / 10 = f0_2 /\ 11 / 10 = f1_1 /\ 22 / 10 = f2_2)%float.
Proof. vm_compute. repeat split. Qed.

Lemma zero_renders : Decimal_of_string (float_str 0%float) = Ok (Dec false 0 (-1)).
Proof. vm_compute. reflexivity. Qed.

(** One pass with a test on each row adds what the aggregate adds over the
    filtered rows. *)
Lemma running_total_filter (account : Z) (rows : list Credit) :
  forall total : option float,
    running_total account total rows
    = match total with
      | None => sql_sum (map remaining_amount (filter_by_account_id account rows))
      | Some t =>
          s <- float8_accum t (map remaining_amount (filter_by_account_id account rows)) ;;
          Ok (Some s)
      end.
Proof.
  unfold filter_by_account_id.
  induction rows as [|c rows IH]; intros total; simpl.
  - now destruct total.
  - destruct (sql_eq Z.eqb (account_id c) account); simpl.
    + destruct total as [t|]; simpl.
      * destruct (float8pl t (remaining_amount c)) as [s|e]; simpl; [|reflexivity].
        now rewrite IH.
      * now rewrite IH.
    + apply IH.
Qed.

Lemma find_remaining_is_running_total (db : DB) (account : Z) :
  find_remaining_by_account_id db account = total_remaining_for_account db account.
Proof.
  unfold find_remaining_by_account_id, total_remaining_for_account.
  rewrite running_total_filter.
  destruct (sql_sum _) as [[s|]|e]; simpl; auto using zero_renders.
Qed.

Lemma opt_Qeqb_trans (a b c : option Q) :
  F64.opt_Qeqb a b = true -> F64.opt_Qeqb b c = true -> F64.opt_Qeqb a c = true.
Proof.
  destruct a as [a|], b as [b|], c as [c|]; simpl; try discriminate.
  rewrite !Qeq_bool_iff. intros H1 H2. now rewrite H1.
Qed.

(** The sum raises nothing but [DataError]. *)
Lemma float8_accum_raises (l : list float) :
  forall (acc : float) (e : exn), float8_accum acc l = Raise e -> e = DataError.
Proof.
  induction l as [|x l IH]; intros acc e; cbn [float8_accum]; [discriminate|].
  unfold float8pl.
  destruct (is_infinity (acc + x) && negb (is_infinity acc) && negb (is_infinity x));
    cbn [bind]; [congruence | apply IH].
Qed.

Lemma sql_sum_raises (l : list float) (e : exn) :
  sql_sum l = Raise e -> e = DataError.
Proof.
  destruct l as [|x l]; cbn [sql_sum]; [discriminate|].
  destruct (float8_accum x l) as [s|e'] eqn:Hacc; cbn [bind]; [discriminate|].
  intros H. injection H as <-. exact (float8_accum_raises _ _ Hacc).
Qed.

(** C2, as stated, fails: with 0.1 and 0.2 left on the two credits of account
    5, the call returns [Decimal('0.30000000000000004')], which is neither the
    exact sum of the two stored doubles nor the 0.3 that the stored amounts
    read as. *)
Lemma find_remaining_tenths_not_the_sum :
  find_remaining_by_account_id store_tenths 5 = Ok (Dec false 30000000000000004 (-17))
  /\ returns_exactly (find_remaining_by_account_id store_tenths 5)
       (exact_remaining store_tenths 5) = false
  /\ (float_str f0_1 = "0.1" /\ float_str f0_2 = "0.2")%string
  /\ returns_exactly (find_remaining_by_account_id store_tenths 5)
       (Some (3 # 10)%Q) = false.
Proof. vm_compute. repeat split. Qed.

(** C2, amended. [find_remaining_by_account_id] returns what one pass over the
    table gives that adds, in double precision, the [remaining_amount] of
    every row whose [account_id] is the argument, and of no other row, written
    by [str] and read as a [Decimal]; it returns zero when the account has no
    row. *)
Theorem find_remaining_by_account_id_total (db : DB) (account : Z) :
  find_remaining_by_account_id db account = total_remaining_for_account db account
  /\ (filter_by_account_id account db.(credits) = [] ->
      find_remaining_by_account_id db account = Ok (Dec false 0 (-1))
      /\ returns_exactly (find_remaining_by_account_id db account) (Some 0%Q) = true).
Proof.
  split; [apply find_remaining_is_running_total|].
  intros Hnone. unfold find_remaining_by_account_id.
  rewrite Hnone. simpl. rewrite zero_renders. split; reflexivity.
Qed.

(** C4, as stated, fails: with 1.1 and 2.2 left on the two credits of account
    7, the call returns [Decimal('3.3000000000000003')]. This is not the exact
    sum of the two stored amounts, although the store added them without
    rounding anything: the sum is a double that [str] writes with seventeen
    digits and not in full. Nor is it the 3.3 that the two amounts, which
    [str] writes as 1.1 and 2.2, read as. *)
Lemma find_remaining_elevenths_drifts :
  find_remaining_by_account_id store_elevenths 7 = Ok (Dec false 33000000000000003 (-16))
  /\ returns_exactly (find_remaining_by_account_id store_elevenths 7)
       (exact_remaining store_elevenths 7) = false
  /\ F64.opt_Qeqb (F64.exact (f1_1 + f2_2)) (exact_remaining store_elevenths 7) = true
  /\ (float_str f1_1 = "1.1" /\ float_str f2_2 = "2.2")%string
  /\ returns_exactly (find_remaining_by_account_id store_elevenths 7)
       (Some (33 # 10)%Q) = false.
Proof. vm_compute. repeat split. Qed.

(** C4, amended. The [Decimal] returned is the one that [str] writes for the
    double-precision total of the store, so that its coefficient has
    seventeen digits at most (unless the total is infinite or NaN); the call
    raises nothing but [DataError]. The round trip through [str] and
    [Decimal] comes after the floating-point sum and does not give the exact
    sum back: the value returned can be the exact sum of the stored amounts
    only when that sum is a decimal of seventeen digits at most. *)
Theorem find_remaining_seventeen_digits (db : DB) (account : Z) :
  find_remaining_by_account_id db account = total_remaining_for_account db account
  /\ match find_remaining_by_account_id db account with
     | Ok (Dec _ c _) => 0 <= c < 10 ^ 17
     | Ok _ => True
     | Raise e => e = DataError
     end
  /\ (returns_exactly (find_remaining_by_account_id db account)
        (exact_remaining db account) = true ->
      exists (neg : bool) (c e : Z),
        0 <= c < 10 ^ 17
        /\ F64.opt_Qeqb (Decimal_value (Dec neg c e)) (exact_remaining db account)
           = true).
Proof.
  split; [apply find_remaining_is_running_total|].
  assert (H : match find_remaining_by_account_id db account with
              | Ok (Dec _ c _) => 0 <= c < 10 ^ 17
              | Ok _ => True
              | Raise e => e = DataError
              end).
  { unfold find_remaining_by_account_id.
    destruct (sql_sum (map remaining_amount (filter_by_account_id account (credits db))))
      as [scalar|e] eqn:Hsum; cbn [bind].
    - pose proof (float_str_digits (coalesce scalar 0)) as Hd.
      destruct (Decimal_of_string (float_str (coalesce scalar 0))) as [d|e];
        [exact Hd | contradiction].
    - exact (sql_sum_raises _ Hsum). }
  split; [exact H|].
  intros Hexact.
  destruct (find_remaining_by_account_id db account) as [[neg c e| |]|e];
    cbn [returns_exactly Decimal_value F64.opt_Qeqb] in Hexact; try discriminate.
  now exists neg, c, e.
Qed.

(** The specification's scenario: 25.50 and 74.50 on account 5 make 100.0,
    exactly; it is a decimal of four digits. *)
Lemma find_remaining_scenario_exact :
  find_remaining_by_account_id store_scenario 5 = Ok (Dec false 1000 (-1))
  /\ returns_exactly (find_remaining_by_account_id store_scenario 5)
       (exact_remaining store_scenario 5) = true.
Proof. vm_compute. split; reflexivity. Qed.

(** ** Creation and the invariant *)

(** The float that the store holds is the float given, but for the sign of a
    zero. *)
Lemma float8_literal_spec (x : float) :
  Prim2SF (float8_literal x) = SF_literal (Prim2SF x).
Proof.
  unfold float8_literal. rewrite FloatAxioms.eqb_spec.
  change (Prim2SF 0) with (S754_zero false).
  destruct (Prim2SF x) as [s|s| |s m e] eqn:E; cbn [SF_literal].
  - reflexivity.
  - destruct s; cbn; exact E.
  - cbn. exact E.
  - destruct s; cbn; exact E.
Qed.

(** The sign of a zero plays no part in a comparison. *)
Lemma SFcompare_literal (x y : spec_float) :
  SFcompare (SF_literal x) (SF_literal y) = SFcompare x y.
Proof.
  destruct x as [[]|[]| |[] mx ex], y as [[]|[]| |[] my ey]; reflexivity.
Qed.

Lemma float8_literal_leb (x y : float) :
  (float8_literal x <=? float8_literal y)%float = (x <=? y)%float.
Proof.
  rewrite !leb_spec, !float8_literal_spec. unfold SFleb.
  now rewrite SFcompare_literal.
Qed.






Lemma refused_tables (k : Init.t) (e : exn) (db : DB) :
  credits (refused k e db) = db.(credits)
  /\ payment_accounts (refused k e db) = db.(payment_accounts)
  /\ invoices (refused k e db) = db.(invoices)
  /\ cfs_accounts (refused k e db) = db.(cfs_accounts).
Proof. unfold refused. destruct e, (Init.id k); repeat split. Qed.


(** What [insert] does, by what the caller gave: the row it stores carries
    the two amounts as the store holds them, the creation time given or else
    the clock's, and goes last into the table; it raises nothing but
    [IntegrityError] and [DataError]. *)
Lemma insert_cases (now : datetime) (k : Init.t) (db : DB) :
  match insert now k db with
  | Ok (c, db') =>
      option_map float8_literal k.(Init.amount) = Some c.(amount)
      /\ option_map float8_literal k.(Init.remaining_amount) = Some c.(remaining_amount)
      /\ c.(created_on)
         = Some match k.(Init.created_on) with Some t => t | None => now end
      /\ db'.(credits) = db.(credits) ++ [c]
  | Raise e => e = IntegrityError \/ e = DataError
  end.
Proof.
  unfold insert.
  destruct (negb (opt_len_ok 50 _ && _ && _)); [now right|].
  destruct (negb (int32_ok _ && _ && _)); [now right|].
  destruct (Init.amount k) as [a|]; [|now left].
  destruct (Init.remaining_amount k) as [r|]; [|now left].
  destruct (existsb _ _); [now left|].
  destruct (negb _); [now left|].
  cbn [amount remaining_amount created_on credits option_map].
  destruct (Init.created_on k); repeat split; reflexivity.
Qed.

(** C1, as stated, fails: a credit created with amount 1.0 and
    remaining_amount 2.0 is stored as given, and the table, which satisfied
    the invariant before, no longer does. *)
Lemma insert_breaks_invariant :
  forallb credit_invariant (credits (store [])) = true
  /\ fst (step (store []) (Insert 0 (init_amounts (Some 1%float) (Some 2%float) 5 None)))
     = store [credit_row 1 None false 1 2 5]
  /\ forallb credit_invariant
       (credits (fst (step (store [])
                        (Insert 0 (init_amounts (Some 1%float) (Some 2%float) 5 None)))))
     = false.
Proof. vm_compute. repeat split. Qed.

(** C1, amended. The entity checks no amount: the invariant
    [0 <= remaining_amount <= amount] holds of every row after an operation
    when it held before and the operation brought no amounts that break it.
    The two queries bring none and leave the store as it was; a creation
    brings the two amounts of its arguments. *)
Theorem step_preserves_invariant (db : DB) (o : operation) :
  forallb credit_invariant db.(credits) = true ->
  supplies_invariant o = true ->
  forallb credit_invariant (credits (fst (step db o))) = true
  /\ match o with
     | Insert _ _ => True
     | _ => fst (step db o) = db
     end.
Proof.
  intros Hdb Ho. destruct o as [s m|a|now k]; cbn [step fst]; auto.
  split; [|exact I].
  pose proof (insert_cases now k db) as H.
  destruct (insert now k db) as [[c db']|e]; cbn [fst].
  - destruct H as (Ha & Hr & _ & Hrows).
    rewrite Hrows, forallb_app, Hdb. cbn [forallb andb]. rewrite andb_true_r.
    cbn [supplies_invariant] in Ho.
    destruct (Init.amount k) as [a|]; [|discriminate].
    destruct (Init.remaining_amount k) as [r|]; [|discriminate].
    cbn [option_map] in Ha, Hr. injection Ha as Ha. injection Hr as Hr.
    unfold credit_invariant. rewrite <- Ha, <- Hr.
    change (0 <=? float8_literal r)%float
      with (float8_literal 0 <=? float8_literal r)%float.
    now rewrite !float8_literal_leb.
  - now rewrite (proj1 (refused_tables k e db)).
Qed.

Lemma step_preserves_invariant_scenario :
  forallb credit_invariant
    (credits (fst (step store_scenario
                     (Insert 0 (init_amounts (Some 100%float) (Some 60%float) 7 None)))))
  = true
  /\ match Insert 0 (init_amounts (Some 100%float) (Some 60%float) 7 None) with
     | Insert _ _ => True
     | _ => fst (step store_scenario
                   (Insert 0 (init_amounts (Some 100%float) (Some 60%float) 7 None)))
            = store_scenario
     end.
Proof.
  apply (@step_preserves_invariant store_scenario
           (Insert 0 (init_amounts (Some 100%float) (Some 60%float) 7 None)));
    vm_compute; reflexivity.
Defined.



(** C8. A credit created without [created_on] is stored with the time the
    clock gives at the insertion, one created with a [created_on] with that
    one; the row is in the table afterwards. *)
Theorem insert_created_on (now : datetime) (k : Init.t) (db db' : DB) (c : Credit) :
  insert now k db = Ok (c, db') ->
  c.(created_on) = Some match k.(Init.created_on) with Some t => t | None => now end
  /\ In c db'.(credits).
Proof.
  intros Hins. pose proof (insert_cases now k db) as H. rewrite Hins in H.
  destruct H as (_ & _ & Hc & Hrows). split; [exact Hc|].
  rewrite Hrows. apply in_or_app. right. now left.
Qed.

Lemma insert_created_on_default_and_given :
  (created_on (credit_row_at 1 None false 100 100 5 1700000000000000)
   = Some 1700000000000000
   /\ In (credit_row_at 1 None false 100 100 5 1700000000000000)
        (credits (store [credit_row_at 1 None false 100 100 5 1700000000000000])))
  /\ (created_on (credit_row_at 1 None false 100 100 5 1600000000000000)
      = Some 1600000000000000
      /\ In (credit_row_at 1 None false 100 100 5 1600000000000000)
           (credits (store [credit_row_at 1 None false 100 100 5 1600000000000000]))).
Proof.
  split.
  - apply (@insert_created_on 1700000000000000
             (init_amounts (Some 100%float) (Some 100%float) 5 None) (store [])).
    vm_compute. reflexivity.
  - apply (@insert_created_on 1700000000000000
             (init_amounts (Some 100%float) (Some 100%float) 5 (Some 1600000000000000))
             (store [])).
    vm_compute. reflexivity.
Defined.

(** ** Applying a credit *)

(** One application, by cases. *)
Lemma apply_cases (c : Ledger.Credit) (amount_to_apply : Z) (invoice_id : Z) :
  (c.(Ledger.remaining_amount) < amount_to_apply
   /\ apply c amount_to_apply invoice_id = (c, Raise InsufficientCreditError))
  \/ (amount_to_apply <= c.(Ledger.remaining_amount)
      /\ snd (apply c amount_to_apply invoice_id) = Ok tt
      /\ Ledger.remaining_amount (fst (apply c amount_to_apply invoice_id))
         = c.(Ledger.remaining_amount) - amount_to_apply
      /\ Ledger.amount (fst (apply c amount_to_apply invoice_id)) = c.(Ledger.amount)).
Proof.
  unfold apply.
  destruct (Ledger.remaining_amount c <? amount_to_apply) eqn:E.
  - left. apply Z.ltb_lt in E. now split.
  - right. apply Z.ltb_ge in E. repeat split. exact E.
Qed.

(** Applications of amounts that are not negative take from what remains
    what they were granted, and no more than there was. *)
Lemma apply_all_conserves (applications : list (Z * Z)) :
  forall c : Ledger.Credit,
    Forall (fun p => 0 <= fst p) applications ->
    0 <= c.(Ledger.remaining_amount) ->
    Ledger.remaining_amount (fst (apply_all c applications))
    + snd (apply_all c applications) = c.(Ledger.remaining_amount)
    /\ 0 <= Ledger.remaining_amount (fst (apply_all c applications))
    /\ 0 <= snd (apply_all c applications)
    /\ Ledger.amount (fst (apply_all c applications)) = c.(Ledger.amount).
Proof.
  induction applications as [|[a invoice] rest IH]; intros c Hall Hc;
    cbn [apply_all fst snd].
  - repeat split; lia.
  - inversion Hall as [|p l Ha Hrest]; subst. cbn [fst] in Ha.
    destruct (apply_cases c a invoice) as [[Hlt Hrefused]|(Hle & Hok & Hrem & Hamount)].
    + rewrite Hrefused. specialize (IH c Hrest Hc).
      destruct (apply_all c rest) as [c'' total]. cbn [fst snd] in *. exact IH.
    + destruct (apply c a invoice) as [c' r]. cbn [fst snd] in *. subst r.
      assert (Hc' : 0 <= Ledger.remaining_amount c') by lia.
      specialize (IH c' Hrest Hc').
      destruct (apply_all c' rest) as [c'' total]. cbn [fst snd] in *.
      repeat split; lia.
Qed.

(** C5. [apply] with more than what remains fails with
    [InsufficientCreditError] and leaves the record as it was, whole. With
    at most what remains it succeeds and takes exactly the amount off
    [remaining_amount], amounts being fixed decimals: what remains and what
    was applied add up to what remained before, and no other field changes.
    It keeps [0 <= remaining_amount <= amount] when the amount applied is not
    negative, and applications one after the other, of amounts that are not
    negative, never take more than there was: what remains at the end and
    what was granted add up to what remained at the start. The invoice plays
    no part. *)
Theorem apply_contract (c : Ledger.Credit) (amount_to_apply : Z) (invoice_id : Z) :
  (c.(Ledger.remaining_amount) < amount_to_apply ->
   apply c amount_to_apply invoice_id = (c, Raise InsufficientCreditError))
  /\ (amount_to_apply <= c.(Ledger.remaining_amount) ->
      snd (apply c amount_to_apply invoice_id) = Ok tt
      /\ Ledger.remaining_amount (fst (apply c amount_to_apply invoice_id))
         = c.(Ledger.remaining_amount) - amount_to_apply
      /\ Ledger.remaining_amount (fst (apply c amount_to_apply invoice_id))
         + amount_to_apply = c.(Ledger.remaining_amount)
      /\ Ledger.id (fst (apply c amount_to_apply invoice_id)) = c.(Ledger.id)
      /\ Ledger.account_id (fst (apply c amount_to_apply invoice_id))
         = c.(Ledger.account_id)
      /\ Ledger.amount (fst (apply c amount_to_apply invoice_id)) = c.(Ledger.amount)
      /\ Ledger.is_credit_memo (fst (apply c amount_to_apply invoice_id))
         = c.(Ledger.is_credit_memo)
      /\ Ledger.cfs_identifier (fst (apply c amount_to_apply invoice_id))
         = c.(Ledger.cfs_identifier)
      /\ Ledger.cfs_site (fst (apply c amount_to_apply invoice_id)) = c.(Ledger.cfs_site)
      /\ Ledger.created_invoice_id (fst (apply c amount_to_apply invoice_id))
         = c.(Ledger.created_invoice_id)
      /\ Ledger.details (fst (apply c amount_to_apply invoice_id)) = c.(Ledger.details)
      /\ Ledger.created_on (fst (apply c amount_to_apply invoice_id))
         = c.(Ledger.created_on))
  /\ (0 <= amount_to_apply <= c.(Ledger.remaining_amount) ->
      c.(Ledger.remaining_amount) <= c.(Ledger.amount) ->
      0 <= Ledger.remaining_amount (fst (apply c amount_to_apply invoice_id))
      <= Ledger.amount (fst (apply c amount_to_apply invoice_id)))
  /\ (forall applications : list (Z * Z),
        Forall (fun p => 0 <= fst p) applications ->
        0 <= c.(Ledger.remaining_amount) ->
        Ledger.remaining_amount (fst (apply_all c applications))
        + snd (apply_all c applications) = c.(Ledger.remaining_amount)
        /\ 0 <= Ledger.remaining_amount (fst (apply_all c applications))
           <= c.(Ledger.remaining_amount)).
Proof.
  split; [|split; [|split]].
  - intros Hlt. unfold apply.
    replace (Ledger.remaining_amount c <? amount_to_apply) with true;
      [reflexivity | symmetry; now apply Z.ltb_lt].
  - intros Hle. unfold apply.
    replace (Ledger.remaining_amount c <? amount_to_apply) with false
      by (symmetry; now apply Z.ltb_ge).
    cbn. repeat split. lia.
  - intros Ha Hc.
    destruct (apply_cases c amount_to_apply invoice_id)
      as [[Hlt _]|(_ & _ & Hrem & Hamount)]; lia.
  - intros applications Hall Hc.
    destruct (@apply_all_conserves applications c Hall Hc) as (Hsum & Hrem & Htotal & _).
    lia.
Qed.

(** The specification's scenario, in hundredths: 40.00 applied to a credit of
    100.00 against invoice 7 leaves 60.00; 70.00 is then refused and 60.00
    still remain; of the two, 40.00 were granted. *)
Lemma apply_scenario :
  apply (ledger_credit 10000) 4000 7 = (ledger_credit 6000, Ok tt)
  /\ apply (ledger_credit 6000) 7000 7 = (ledger_credit 6000, Raise InsufficientCreditError)
  /\ apply_all (ledger_credit 10000) [(4000, 7); (7000, 7)] = (ledger_credit 6000, 4000).
Proof. repeat split. Qed.

(** ** The mapper and the schema *)

(** The mapper maps the ten columns of [include_properties], whatever other
    columns the table has beside the ten of the class. *)
Lemma mapped_columns_allow_list (others : list Column) (name : string) :
  In name (map column_name (mapped_columns (Credit_columns ++ others)))
  <-> In name include_properties.
Proof.
  unfold mapped_columns. rewrite filter_app, map_app, in_app_iff. split.
  - intros [H|H].
    + vm_compute in H. vm_compute. tauto.
    + apply in_map_iff in H as (col & <- & Hcol).
      apply filter_In in Hcol as [_ Hcol].
      apply existsb_exists in Hcol as (n & Hn & Heq).
      apply String.eqb_eq in Heq. now rewrite Heq.
  - intros H. left. vm_compute in H. vm_compute. tauto.
Qed.

(** C7: what the schema writes out. The mapper keeps to the ten names of its
    allow-list, but the schema has a field for seven of them only: the three
    columns that carry a foreign key, [cfs_site], [created_invoice_id] and
    [account_id], have none, and a dumped credit has no entry for them. *)
Theorem CreditSchema_dump_omits_foreign_keys (c : Credit) :
  map column_name (mapped_columns Credit_columns)
  = [ "id"; "cfs_identifier"; "cfs_site"; "is_credit_memo"; "amount";
      "remaining_amount"; "details"; "created_on"; "created_invoice_id";
      "account_id" ]%string
  /\ map fst (CreditSchema_dump c)
     = [ "id"; "cfs_identifier"; "is_credit_memo"; "amount"; "remaining_amount";
         "details"; "created_on" ]%string
  /\ existsb (String.eqb "account_id") (map fst (CreditSchema_dump c)) = false.
Proof. repeat split. Qed.

(** ** Creation, then [find_by_cfs_identifier] *)

(** What a creation that succeeds has checked and stored. *)
Lemma insert_inversion (now : datetime) (k : Init.t) (db db' : DB) (c : Credit) :
  insert now k db = Ok (c, db') ->
  c.(cfs_identifier) = k.(Init.cfs_identifier)
  /\ c.(is_credit_memo) = Some (is_credit_memo_or_default k)
  /\ c.(account_id) = k.(Init.account_id)
  /\ option_map float8_literal k.(Init.remaining_amount) = Some c.(remaining_amount)
  /\ existsb (fun r => r.(id) =? c.(id)) db.(credits) = false
  /\ lengths_hold c = true
  /\ references_hold db c = true
  /\ db'.(credits) = db.(credits) ++ [c]
  /\ db'.(payment_accounts) = db.(payment_accounts)
  /\ db'.(invoices) = db.(invoices)
  /\ db'.(cfs_accounts) = db.(cfs_accounts).
Proof.
  unfold insert.
  destruct (negb (opt_len_ok 50 (Init.cfs_identifier k) && _ && _)) eqn:Hlen;
    [discriminate|].
  destruct (negb (int32_ok _ && _ && _)) eqn:Hint; [discriminate|].
  destruct (Init.amount k) as [a|]; [|discriminate].
  destruct (Init.remaining_amount k) as [r|]; [|discriminate].
  destruct (existsb _ _) eqn:Hkey; [discriminate|].
  destruct (negb (opt_in String.eqb _ _ && _ && _)) eqn:Hfk; [discriminate|].
  intros H. injection H as <- <-.
  apply negb_false_iff in Hlen. apply negb_false_iff in Hfk.
  unfold lengths_hold, references_hold, is_credit_memo_or_default.
  cbn [cfs_identifier cfs_site is_credit_memo details created_invoice_id account_id
       remaining_amount id credits payment_accounts invoices cfs_accounts option_map].
  repeat split; try assumption; try reflexivity.
  destruct (Init.is_credit_memo k); reflexivity.
Qed.

(** The rows that carry a pair once a credit is created: those that carried
    it, and the new row when it carries the pair. *)
Lemma rows_with_pair_insert (now : datetime) (k : Init.t) (db db' : DB) (c : Credit)
    (s : string) (m : bool) :
  insert now k db = Ok (c, db') ->
  rows_with_pair db' s m
  = rows_with_pair db s m ++ (if has_pairb s m c then [c] else []).
Proof.
  intros Hins. apply insert_inversion in Hins.
  destruct Hins as (_ & _ & _ & _ & _ & _ & _ & Hrows & _).
  unfold rows_with_pair. rewrite Hrows, filter_app. reflexivity.
Qed.

Lemma has_pairb_insert (now : datetime) (k : Init.t) (db db' : DB) (c : Credit)
    (s : string) (m : bool) :
  insert now k db = Ok (c, db') ->
  has_pairb s m c
  = sql_eq String.eqb k.(Init.cfs_identifier) s
    && Bool.eqb (is_credit_memo_or_default k) m.
Proof.
  intros Hins. apply insert_inversion in Hins.
  destruct Hins as (Hcfs & Hmemo & _).
  unfold has_pairb. now rewrite Hcfs, Hmemo.
Qed.



(** X2. The table declares no uniqueness of the external identifier
    ([index=True] only): when a lookup finds a credit, a second credit with
    the same identifier and origin can still be created, and once it is, the
    same lookup raises [MultipleResultsFound]. *)
Theorem insert_duplicate_then_find_raises (now : datetime) (k : Init.t)
    (db db' : DB) (c c0 : Credit) (s : string) (m : bool) :
  find_by_cfs_identifier db s m = Ok (Some c0) ->
  k.(Init.cfs_identifier) = Some s ->
  is_credit_memo_or_default k = m ->
  insert now k db = Ok (c, db') ->
  find_by_cfs_identifier db' s m = Raise MultipleResultsFound.
Proof.
  intros Hfound Hs Hm Hins.
  pose proof (find_by_cfs_identifier_cases db s m) as Hcase.
  rewrite Hfound in Hcase. destruct Hcase as (Hrows & _).
  rewrite find_by_cfs_identifier_rows, (@rows_with_pair_insert now k db db' c s m Hins), Hrows.
  rewrite (@has_pairb_insert now k db db' c s m Hins), Hs, Hm. cbn [sql_eq].
  now rewrite String.eqb_refl, Bool.eqb_reflx.
Qed.

Lemma insert_duplicate_then_find_raises_example :
  find_by_cfs_identifier store_duplicates "CM-1" true = Raise MultipleResultsFound.
Proof.
  apply (@insert_duplicate_then_find_raises 0 (init_external "CM-1" (Some true) 20 20 7)
           (store [credit_row 1 (Some "CM-1"%string) true 10 10 5])
           store_duplicates
           (credit_row 2 (Some "CM-1"%string) true 20 20 7)
           (credit_row 1 (Some "CM-1"%string) true 10 10 5)).
  - reflexivity.
  - reflexivity.
  - reflexivity.
  - vm_compute. reflexivity.
Defined.



(** ** [find_by_cfs_identifier]: the order of the rows, and identifiers too long *)

Lemma filter_Permutation {A : Type} (f : A -> bool) (l l' : list A) :
  Permutation l l' -> Permutation (filter f l) (filter f l').
Proof.
  induction 1 as [|x l l' _ IH|x y l|l l' l'' _ IH1 _ IH2]; cbn [filter].
  - constructor.
  - destruct (f x); [now constructor | exact IH].
  - destruct (f x), (f y); try apply Permutation_refl. apply perm_swap.
  - eapply Permutation_trans; eassumption.
Qed.

Lemma one_or_none_Permutation {A : Type} (l l' : list A) :
  Permutation l l' -> one_or_none l = one_or_none l'.
Proof.
  intros H. pose proof (Permutation_length H) as Hlen.
  destruct l as [|x [|y l]].
  - apply Permutation_nil in H. now subst.
  - apply Permutation_length_1_inv in H. now subst.
  - destruct l' as [|x' [|y' l']]; cbn [List.length] in Hlen; try discriminate.
    reflexivity.
Qed.

(** X4. [find_by_cfs_identifier] does not depend on the order of the rows: on
    two tables that hold the same rows, in whatever order, it gives the same
    answer (the query has no ORDER BY, and [one_or_none] needs none). *)
Theorem find_by_cfs_identifier_any_order (db db' : DB) (s : string) (m : bool) :
  Permutation db.(credits) db'.(credits) ->
  find_by_cfs_identifier db s m = find_by_cfs_identifier db' s m.
Proof.
  intros H. rewrite !find_by_cfs_identifier_rows.
  apply one_or_none_Permutation. unfold rows_with_pair.
  now apply filter_Permutation.
Qed.

Lemma find_by_cfs_identifier_any_order_example :
  find_by_cfs_identifier
    (store [ credit_row 1 (Some "CM-1"%string) true 10 10 5;
             credit_row 2 (Some "CM-2"%string) false 20 20 7 ]) "CM-2" false
  = find_by_cfs_identifier
      (store [ credit_row 2 (Some "CM-2"%string) false 20 20 7;
               credit_row 1 (Some "CM-1"%string) true 10 10 5 ]) "CM-2" false.
Proof.
  apply (@find_by_cfs_identifier_any_order
           (store [ credit_row 1 (Some "CM-1"%string) true 10 10 5;
                    credit_row 2 (Some "CM-2"%string) false 20 20 7 ])
           (store [ credit_row 2 (Some "CM-2"%string) false 20 20 7;
                    credit_row 1 (Some "CM-1"%string) true 10 10 5 ])).
  apply perm_swap.
Defined.

Lemma forallb_filter_none {A : Type} (inv f : A -> bool) (l : list A) :
  (forall x, inv x = true -> f x = false) ->
  forallb inv l = true -> filter f l = [].
Proof.
  intros H. induction l as [|x l IH]; cbn [forallb filter]; [reflexivity|].
  intros Hl. apply andb_true_iff in Hl as [Hx Hl].
  rewrite (H x Hx). now apply IH.
Qed.

(** X5. In a table whose texts fit their columns, an identifier of more than
    50 characters is carried by no row: [find_by_cfs_identifier] returns
    [None] for it, whatever the origin, and raises nothing. *)
Theorem find_by_cfs_identifier_too_long (db : DB) (s : string) (m : bool) :
  forallb lengths_hold db.(credits) = true ->
  (50 < String.length s)%nat ->
  find_by_cfs_identifier db s m = Ok None.
Proof.
  intros Hdb Hs. rewrite find_by_cfs_identifier_rows. unfold rows_with_pair.
  rewrite (@forallb_filter_none _ lengths_hold (has_pairb s m) db.(credits));
    [reflexivity | | exact Hdb].
  intros c Hc. destruct (has_pairb s m c) eqn:Hpair; [|reflexivity].
  apply has_pairb_spec in Hpair as [Hcfs _].
  unfold lengths_hold in Hc. rewrite Hcfs in Hc. cbn [opt_len_ok] in Hc.
  apply andb_true_iff in Hc as [Hc _]. apply andb_true_iff in Hc as [Hc _].
  apply Nat.leb_le in Hc. lia.
Qed.

Lemma find_by_cfs_identifier_too_long_example :
  find_by_cfs_identifier store_duplicates long_identifier true = Ok None.
Proof.
  apply (@find_by_cfs_identifier_too_long store_duplicates long_identifier true).
  - reflexivity.
  - vm_compute. apply le_n.
Defined.

(** ** [find_remaining_by_account_id]: what it raises, and what it reads *)

(** X6. [find_remaining_by_account_id] raises nothing but [DataError], and
    that only when the sum overflows in the store, which takes two rows of
    the account at least. In particular [Decimal(str(...))] never fails:
    [Decimal] reads whatever [str] writes for a float, finite, infinite or
    NaN, so [InvalidOperation] is never raised. *)
Theorem find_remaining_raises_only_overflow (db : DB) (a : Z) :
  match find_remaining_by_account_id db a with
  | Ok _ => True
  | Raise e =>
      e = DataError
      /\ remaining_scalar db a = Raise DataError
      /\ (2 <= List.length (filter_by_account_id a db.(credits)))%nat
  end.
Proof.
  unfold find_remaining_by_account_id, remaining_scalar.
  destruct (sql_sum (map remaining_amount (filter_by_account_id a (credits db))))
    as [scalar|e] eqn:Hsum; cbn [bind].
  - destruct (float_str_parses (coalesce scalar 0)) as [d Hd]. now rewrite Hd.
  - destruct (filter_by_account_id a (credits db)) as [|c1 [|c2 rows]];
      cbn [map sql_sum float8_accum bind] in Hsum; try discriminate.
    assert (He : e = DataError).
    { destruct (float8pl (remaining_amount c1) (remaining_amount c2)) as [s|e0] eqn:Hpl;
        cbn [bind] in Hsum.
      - destruct (float8_accum s (map remaining_amount rows)) as [s'|e'] eqn:Hacc;
          cbn [bind] in Hsum; [discriminate|].
        injection Hsum as <-. exact (float8_accum_raises _ _ Hacc).
      - injection Hsum as <-. unfold float8pl in Hpl.
        destruct (is_infinity _ && _ && _); congruence. }
    subst e. repeat split. cbn [List.length]. lia.
Qed.

Lemma filter_by_account_id_insert (now : datetime) (k : Init.t) (db db' : DB)
    (c : Credit) (a : Z) :
  insert now k db = Ok (c, db') ->
  filter_by_account_id a db'.(credits)
  = filter_by_account_id a db.(credits)
    ++ (if sql_eq Z.eqb k.(Init.account_id) a then [c] else []).
Proof.
  intros Hins. apply insert_inversion in Hins.
  destruct Hins as (_ & _ & Hacc & _ & _ & _ & _ & Hrows & _).
  unfold filter_by_account_id. rewrite Hrows, filter_app. cbn [filter].
  now rewrite Hacc.
Qed.

Lemma float8_accum_snoc (l : list float) (x : float) :
  forall acc : float,
    float8_accum acc (l ++ [x]) = (s <- float8_accum acc l ;; float8pl s x).
Proof.
  induction l as [|y l IH]; intros acc; cbn [app float8_accum].
  - cbn [bind]. destruct (float8pl acc x); reflexivity.
  - destruct (float8pl acc y) as [s|e]; cbn [bind]; [apply IH | reflexivity].
Qed.

Lemma sql_sum_snoc (l : list float) (x : float) :
  sql_sum (l ++ [x])
  = (t <- sql_sum l ;;
     s <- match t with
          | None => Ok x
          | Some t0 => float8pl t0 x
          end ;;
     Ok (Some s)).
Proof.
  destruct l as [|y l]; cbn [app sql_sum]; [reflexivity|].
  rewrite float8_accum_snoc.
  destruct (float8_accum y l) as [s|e]; reflexivity.
Qed.

(** X7. After a credit is created for an account, the total of the account is
    [Decimal(str(t + r))], where [t] is the double-precision total the store
    computed before and [r] the [remaining_amount] of the new credit, added
    as the store adds (an overflow raising [DataError]); it is
    [Decimal(str(r))] when the account had no credit. *)
Theorem find_remaining_after_insert (now : datetime) (k : Init.t) (db db' : DB)
    (c : Credit) (a : Z) :
  insert now k db = Ok (c, db') ->
  k.(Init.account_id) = Some a ->
  find_remaining_by_account_id db' a
  = (t <- remaining_scalar db a ;;
     s <- match t with
          | None => Ok c.(remaining_amount)
          | Some t0 => float8pl t0 c.(remaining_amount)
          end ;;
     Decimal_of_string (float_str s)).
Proof.
  intros Hins Ha. unfold find_remaining_by_account_id, remaining_scalar.
  rewrite (@filter_by_account_id_insert now k db db' c a Hins), Ha.
  cbn [sql_eq]. rewrite Z.eqb_refl, map_app. cbn [map]. rewrite sql_sum_snoc.
  destruct (sql_sum _) as [[t|]|e]; cbn [bind]; [|reflexivity|reflexivity].
  destruct (float8pl t (remaining_amount c)); reflexivity.
Qed.

Lemma find_remaining_after_insert_example :
  find_remaining_by_account_id
    (store [ credit_row 1 None false 25.5 25.5 5; credit_row 2 None false 74.5 74.5 5;
             credit_row 3 (Some "CM-1"%string) false 10 10 5 ]) 5
  = (t <- remaining_scalar store_scenario 5 ;;
     s <- match t with
          | None => Ok (remaining_amount (credit_row 3 (Some "CM-1"%string) false 10 10 5))
          | Some t0 =>
              float8pl t0 (remaining_amount (credit_row 3 (Some "CM-1"%string) false 10 10 5))
          end ;;
     Decimal_of_string (float_str s)).
Proof.
  apply (@find_remaining_after_insert 0 (init_external "CM-1" None 10 10 5)
           store_scenario).
  - vm_compute. reflexivity.
  - reflexivity.
Defined.

(** X8. An operation changes the total of an account only by creating a
    credit for that account: after a query, after a creation that failed,
    after the creation of a credit for another account or for none,
    [find_remaining_by_account_id] answers as it did before. *)
Theorem step_keeps_other_accounts (db : DB) (o : operation) (a : Z) :
  match o with
  | Insert _ k => sql_eq Z.eqb k.(Init.account_id) a = false
  | _ => True
  end ->
  find_remaining_by_account_id (fst (step db o)) a = find_remaining_by_account_id db a.
Proof.
  destruct o as [s m|a0|now k]; cbn [step fst]; try reflexivity.
  intros Hother.
  destruct (insert now k db) as [[c db']|e] eqn:Hins; cbn [fst].
  2: { unfold find_remaining_by_account_id.
       now destruct (refused_tables k e db) as (-> & _). }
  unfold find_remaining_by_account_id.
  rewrite (@filter_by_account_id_insert now k db db' c a Hins), Hother.
  now rewrite app_nil_r.
Qed.

Lemma step_keeps_other_accounts_example :
  find_remaining_by_account_id
    (fst (step store_scenario (Insert 0 (init_external "CM-1" None 10 10 7)))) 5
  = find_remaining_by_account_id store_scenario 5.
Proof.
  apply (@step_keeps_other_accounts store_scenario
           (Insert 0 (init_external "CM-1" None 10 10 7)) 5).
  reflexivity.
Defined.

(** X9. When the foreign key of [account_id] holds of every row, the total of
    an account that is not in [payment_accounts] is zero, [Decimal('0.0')]:
    an unknown account is no error. *)
Theorem find_remaining_unknown_account (db : DB) (a : Z) :
  forallb (references_hold db) db.(credits) = true ->
  existsb (Z.eqb a) db.(payment_accounts) = false ->
  find_remaining_by_account_id db a = Ok (Dec false 0 (-1)).
Proof.
  intros Hdb Ha. unfold find_remaining_by_account_id, filter_by_account_id.
  rewrite (@forallb_filter_none _ (references_hold db)
             (fun c => sql_eq Z.eqb c.(account_id) a) db.(credits));
    [cbn [map sql_sum bind coalesce]; apply zero_renders | | exact Hdb].
  intros c Hc. destruct (account_id c) as [b|] eqn:Hb; cbn [sql_eq]; [|reflexivity].
  destruct (b =? a) eqn:Hba; [|reflexivity].
  apply Z.eqb_eq in Hba. subst b.
  unfold references_hold in Hc. rewrite Hb in Hc. cbn [opt_in] in Hc.
  apply andb_true_iff in Hc as [_ Hc]. congruence.
Qed.

Lemma find_remaining_unknown_account_example :
  find_remaining_by_account_id store_scenario 9 = Ok (Dec false 0 (-1)).
Proof.
  apply (@find_remaining_unknown_account store_scenario 9); reflexivity.
Defined.

(** X10. The total depends on the [account_id] and the [remaining_amount] of
    the rows and on nothing else: two tables that agree on these two columns,
    row by row, give the same total for every account, whatever their other
    columns hold ([amount] is not read, and credit memos count as other
    credits do). *)
Theorem find_remaining_reads_two_columns (db db' : DB) (a : Z) :
  map account_and_remaining db.(credits) = map account_and_remaining db'.(credits) ->
  find_remaining_by_account_id db a = find_remaining_by_account_id db' a.
Proof.
  intros H. unfold find_remaining_by_account_id.
  assert (E : map remaining_amount (filter_by_account_id a db.(credits))
              = map remaining_amount (filter_by_account_id a db'.(credits))).
  { revert H. generalize (credits db'). generalize (credits db).
    unfold filter_by_account_id.
    induction l as [|c l IH]; intros [|c' l'] H; cbn [map] in H; try discriminate;
      [reflexivity|].
    injection H as Hacc Hrem Hl. cbn [filter]. rewrite Hacc.
    destruct (sql_eq Z.eqb (account_id c') a); cbn [map];
      [rewrite Hrem; f_equal|]; now apply IH. }
  now rewrite E.
Qed.

Lemma find_remaining_reads_two_columns_example :
  find_remaining_by_account_id store_scenario 5
  = find_remaining_by_account_id
      (store [ credit_row 8 (Some "CM-1"%string) true 30 25.5 5;
               credit_row 9 (Some "CM-2"%string) true 80 74.5 5 ]) 5.
Proof.
  apply (@find_remaining_reads_two_columns store_scenario
           (store [ credit_row 8 (Some "CM-1"%string) true 30 25.5 5;
                    credit_row 9 (Some "CM-2"%string) true 80 74.5 5 ]) 5).
  reflexivity.
Defined.

(** ** The key, the references and the lengths *)

Lemma ids_below_fresh (rows : list Credit) (seq : Z) :
  forallb (fun c => c.(id) <? seq) rows = true ->
  existsb (fun c => c.(id) =? seq) rows = false.
Proof.
  induction rows as [|r rows IH]; cbn [forallb existsb]; [reflexivity|].
  intros H. apply andb_true_iff in H as [Hr Hrows].
  rewrite (IH Hrows), orb_false_r. apply Z.ltb_lt in Hr. apply Z.eqb_neq. lia.
Qed.

Lemma int32_ok_bounds (n : Z) : int32_ok n = true -> - 2 ^ 31 <= n < 2 ^ 31.
Proof.
  unfold int32_ok. intros H. apply andb_true_iff in H as [Hlo Hhi].
  apply Z.leb_le in Hlo. apply Z.ltb_lt in Hhi. now split.
Qed.

Lemma forallb_weaken {A : Type} (f g : A -> bool) (l : list A) :
  (forall x, f x = true -> g x = true) -> forallb f l = true -> forallb g l = true.
Proof.
  intros H. induction l as [|x l IH]; cbn [forallb]; [reflexivity|].
  intros Hl. apply andb_true_iff in Hl as [Hx Hl]. now rewrite (H x Hx), IH.
Qed.

(** X11. A creation that violates nothing declared succeeds, as long as the
    sequence has a value left that fits [Integer]. In a table whose keys are
    all below the next value of the sequence, take a credit given without
    [id], with both amounts, with texts that fit their columns and with
    references that fit [Integer] and point to stored rows. When the next
    value of the sequence fits the 32 bits of [Integer], the credit is
    stored: its [id] is that value, it goes last into the table, the sequence
    moves on by one and the keys are again all below it. When the next value
    does not fit, the creation fails with [DataError]. *)
Theorem insert_succeeds (now : datetime) (k : Init.t) (db : DB) :
  ids_below_seq db = true ->
  k.(Init.id) = None ->
  arguments_valid db k = true ->
  if int32_ok db.(credits_id_seq)
  then match insert now k db with
       | Ok (c, db') =>
           c.(id) = db.(credits_id_seq)
           /\ - 2 ^ 31 <= c.(id) < 2 ^ 31
           /\ db'.(credits) = db.(credits) ++ [c]
           /\ db'.(credits_id_seq) = db.(credits_id_seq) + 1
           /\ ids_below_seq db' = true
       | Raise _ => False
       end
  else insert now k db = Raise DataError.
Proof.
  unfold ids_below_seq, arguments_valid, insert, insert_id. intros Hseq Hid Hvalid.
  apply andb_true_iff in Hvalid as [Hvalid Hfk].
  apply andb_true_iff in Hvalid as [Hvalid Hint].
  apply andb_true_iff in Hvalid as [Hamounts Hlen].
  rewrite Hid, Hlen, Hfk. cbn [negb].
  destruct (int32_ok (credits_id_seq db)) eqn:Hfits; cbn [andb];
    [|reflexivity].
  rewrite Hint. cbn [negb].
  destruct (Init.amount k) as [a|]; [|discriminate].
  destruct (Init.remaining_amount k) as [r|]; [|discriminate].
  rewrite (ids_below_fresh _ _ Hseq).
  cbn [id credits credits_id_seq].
  split; [reflexivity|]. split; [now apply int32_ok_bounds|].
  split; [reflexivity|]. split; [reflexivity|].
  rewrite forallb_app. cbn [forallb id]. apply andb_true_iff. split.
  - revert Hseq. apply forallb_weaken. intros c Hc.
    apply Z.ltb_lt in Hc. apply Z.ltb_lt. lia.
  - rewrite andb_true_r. apply Z.ltb_lt. lia.
Qed.

Lemma insert_succeeds_example :
  if int32_ok store_scenario.(credits_id_seq)
  then match insert 0 (init_external "CM-1" None 10 10 5) store_scenario with
       | Ok (c, db') =>
           c.(id) = store_scenario.(credits_id_seq)
           /\ - 2 ^ 31 <= c.(id) < 2 ^ 31
           /\ db'.(credits) = store_scenario.(credits) ++ [c]
           /\ db'.(credits_id_seq) = store_scenario.(credits_id_seq) + 1
           /\ ids_below_seq db' = true
       | Raise _ => False
       end
  else insert 0 (init_external "CM-1" None 10 10 5) store_scenario = Raise DataError.
Proof.
  apply (@insert_succeeds 0 (init_external "CM-1" None 10 10 5) store_scenario);
    reflexivity.
Defined.

(** The sequence at the end of [Integer]: the next value, 2^31, does not fit,
    and the creation fails with [DataError]. *)
Lemma insert_sequence_exhausted :
  insert 0 (init_external "CM-1" None 10 10 5)
    {| credits := [];
       payment_accounts := [5];
       invoices := [];
       cfs_accounts := [];
       credits_id_seq := 2 ^ 31 |}
  = Raise DataError.
Proof. reflexivity. Qed.

Lemma existsb_id_In (key : Z) (rows : list Credit) :
  existsb (fun r => r.(id) =? key) rows = false -> ~ In key (map id rows).
Proof.
  induction rows as [|r rows IH]; cbn [existsb map In]; [tauto|].
  intros H. apply orb_false_iff in H as [Hr Hrows].
  apply Z.eqb_neq in Hr. intros [E|E]; [congruence | now apply IH].
Qed.

Lemma NoDup_snoc {A : Type} (l : list A) (x : A) :
  NoDup l -> ~ In x l -> NoDup (l ++ [x]).
Proof.
  induction 1 as [|y l Hy Hl IH]; cbn [app In]; intros Hx.
  - constructor; [tauto | constructor].
  - constructor.
    + rewrite in_app_iff. cbn [In]. intros [H|[H|[]]]; [tauto|].
      apply Hx. now left.
    + apply IH. tauto.
Qed.

(** One operation keeps the keys distinct, and a row it stores has a key no
    row had. *)
Lemma step_ids_unique (db : DB) (o : operation) :
  NoDup (map id db.(credits)) ->
  NoDup (map id (credits (fst (step db o))))
  /\ match snd (step db o) with
     | Inserted (Ok c) => ~ In c.(id) (map id db.(credits))
     | _ => True
     end.
Proof.
  intros Hdb. destruct o as [s m|a|now k]; cbn [step fst snd]; try tauto.
  destruct (insert now k db) as [[c db']|e] eqn:Hins; cbn [fst snd].
  2: { now destruct (refused_tables k e db) as (-> & _). }
  apply insert_inversion in Hins.
  destruct Hins as (_ & _ & _ & _ & Hkey & _ & _ & Hrows & _).
  apply existsb_id_In in Hkey. split; [|exact Hkey].
  rewrite Hrows, map_app. now apply NoDup_snoc.
Qed.

(** X12. The primary key stays a key: when the [id]s of the table are
    pairwise distinct, they still are after any run of operations of the
    entity. *)
Theorem run_keeps_ids_unique (ops : list operation) :
  forall db : DB,
    NoDup (map id db.(credits)) -> NoDup (map id (credits (run db ops))).
Proof.
  induction ops as [|o ops IH]; intros db Hdb; cbn [run]; [exact Hdb|].
  apply IH. now apply step_ids_unique.
Qed.

Lemma run_keeps_ids_unique_example :
  NoDup (map id (credits (run (store [])
                            [ Insert 0 (init_external "CM-1" None 10 10 5);
                              Find_by_cfs_identifier "CM-1" false;
                              Insert 1 (init_external "CM-1" None 20 20 7) ]))).
Proof.
  apply (@run_keeps_ids_unique
           [ Insert 0 (init_external "CM-1" None 10 10 5);
             Find_by_cfs_identifier "CM-1" false;
             Insert 1 (init_external "CM-1" None 20 20 7) ] (store [])).
  constructor.
Defined.

Lemma forallb_same {A : Type} (f g : A -> bool) (l : list A) :
  (forall x, f x = g x) -> forallb f l = forallb g l.
Proof.
  intros H. induction l as [|x l IH]; cbn [forallb]; [reflexivity|].
  now rewrite H, IH.
Qed.

(** One operation keeps the references and the lengths. *)
Lemma step_constraints (db : DB) (o : operation) :
  forallb (fun c => references_hold db c && lengths_hold c) db.(credits) = true ->
  forallb (fun c => references_hold (fst (step db o)) c && lengths_hold c)
    (credits (fst (step db o))) = true.
Proof.
  intros Hdb. destruct o as [s m|a|now k]; cbn [step fst]; try exact Hdb.
  destruct (insert now k db) as [[c db']|e] eqn:Hins; cbn [fst].
  2: { destruct (refused_tables k e db) as (Hrows & Hpa & Hinv & Hcfs).
       rewrite Hrows, <- Hdb. apply forallb_same. intros r.
       unfold references_hold. now rewrite Hpa, Hinv, Hcfs. }
  apply insert_inversion in Hins.
  destruct Hins as (_ & _ & _ & _ & _ & Hlen & Hfk & Hrows & Hpa & Hinv & Hcfs).
  assert (Hsame : forall r, references_hold db' r = references_hold db r).
  { intros r. unfold references_hold. now rewrite Hpa, Hinv, Hcfs. }
  rewrite Hrows, forallb_app. cbn [forallb].
  rewrite Hsame, Hfk, Hlen. cbn [andb]. rewrite andb_true_r.
  rewrite <- Hdb. apply forallb_same. intros r. now rewrite Hsame.
Qed.

(** X13. The foreign keys and the lengths stay as declared: when every row
    points to stored rows of [cfs_accounts], [invoices] and
    [payment_accounts] (or to none) and its three texts fit [String(50)],
    [String(50)] and [String(200)], the same holds of every row after any run
    of operations of the entity. *)
Theorem run_keeps_constraints (ops : list operation) :
  forall db : DB,
    forallb (fun c => references_hold db c && lengths_hold c) db.(credits) = true ->
    forallb (fun c => references_hold (run db ops) c && lengths_hold c)
      (credits (run db ops)) = true.
Proof.
  induction ops as [|o ops IH]; intros db Hdb; cbn [run]; [exact Hdb|].
  apply IH. now apply step_constraints.
Qed.

Lemma run_keeps_constraints_example :
  forallb (fun c => references_hold
                      (run (store [])
                         [ Insert 0 (init_external "CM-1" None 10 10 5);
                           Insert 1 (init_external "CM-2" None 20 20 9) ]) c
                    && lengths_hold c)
    (credits (run (store [])
                [ Insert 0 (init_external "CM-1" None 10 10 5);
                  Insert 1 (init_external "CM-2" None 20 20 9) ]))
  = true.
Proof.
  apply (@run_keeps_constraints
           [ Insert 0 (init_external "CM-1" None 10 10 5);
             Insert 1 (init_external "CM-2" None 20 20 9) ] (store [])).
  reflexivity.
Defined.

(** X14. No operation of the entity changes or removes a stored credit: after
    any run of operations the table is the table before, row for row,
    followed by the rows created, and the three tables referred to are as
    before. In particular neither [amount] nor [remaining_amount] of a stored
    credit is ever changed by this code. *)
Theorem run_append_only (ops : list operation) :
  forall db : DB,
    (exists added : list Credit, credits (run db ops) = db.(credits) ++ added)
    /\ payment_accounts (run db ops) = db.(payment_accounts)
    /\ invoices (run db ops) = db.(invoices)
    /\ cfs_accounts (run db ops) = db.(cfs_accounts).
Proof.
  induction ops as [|o ops IH]; intros db; cbn [run].
  - split; [exists []; now rewrite app_nil_r | tauto].
  - destruct (IH (fst (step db o))) as ((added & Hrows) & Hpa & Hinv & Hcfs).
    rewrite Hrows, Hpa, Hinv, Hcfs. clear.
    destruct o as [s m|a|now k]; cbn [step fst];
      try (split; [now exists added | tauto]).
    destruct (insert now k db) as [[c db']|e] eqn:Hins; cbn [fst].
    2: { destruct (refused_tables k e db) as (-> & -> & -> & ->).
         split; [now exists added | tauto]. }
    apply insert_inversion in Hins.
    destruct Hins as (_ & _ & _ & _ & _ & _ & _ & Hrows & Hpa & Hinv & Hcfs).
    rewrite Hrows, Hpa, Hinv, Hcfs. split; [|tauto].
    exists (c :: added). now rewrite <- app_assoc.
Qed.

(** ** What the schema writes and what the mapper maps *)

Lemma opt_value_inj {A : Type} (inj : A -> value) (u v : option A) :
  (forall x y, inj x = inj y -> x = y) ->
  (forall x, inj x <> VNone) ->
  opt_value inj u = opt_value inj v -> u = v.
Proof.
  intros Hinj Hnone. destruct u as [x|], v as [y|]; cbn [opt_value]; intros H.
  - f_equal. now apply Hinj.
  - now destruct (Hnone x).
  - symmetry in H. now destruct (Hnone y).
  - reflexivity.
Qed.

(** X15. What [CreditSchema().dump] writes of a credit is its [id],
    [cfs_identifier], [is_credit_memo], [amount], [remaining_amount],
    [details] and [created_on], and no more: two credits have the same dump
    exactly when they agree on these seven attributes, whatever their
    [cfs_site], [created_invoice_id] and [account_id]. *)
Theorem CreditSchema_dump_determines (c1 c2 : Credit) :
  CreditSchema_dump c1 = CreditSchema_dump c2
  <-> (c1.(id) = c2.(id)
       /\ c1.(cfs_identifier) = c2.(cfs_identifier)
       /\ c1.(is_credit_memo) = c2.(is_credit_memo)
       /\ c1.(amount) = c2.(amount)
       /\ c1.(remaining_amount) = c2.(remaining_amount)
       /\ c1.(details) = c2.(details)
       /\ c1.(created_on) = c2.(created_on)).
Proof.
  assert (Hdump : forall c,
             CreditSchema_dump c
             = [ ("id", VInt c.(id));
                 ("cfs_identifier", opt_value VStr c.(cfs_identifier));
                 ("is_credit_memo", opt_value VBool c.(is_credit_memo));
                 ("amount", VFloat c.(amount));
                 ("remaining_amount", VFloat c.(remaining_amount));
                 ("details", opt_value VStr c.(details));
                 ("created_on", opt_value VDateTime c.(created_on)) ]%string)
    by reflexivity.
  rewrite !Hdump. split.
  - intros H. injection H as Hid Hcfs Hmemo Ha Hr Hdet Hon.
    repeat split; try assumption;
      (eapply opt_value_inj; [| |eassumption]; [intros x y E; now injection E | discriminate]).
  - intros (-> & -> & -> & -> & -> & -> & ->). reflexivity.
Qed.

Lemma filter_none {A : Type} (f : A -> bool) (l : list A) :
  forallb (fun x => negb (f x)) l = true -> filter f l = [].
Proof.
  induction l as [|x l IH]; cbn [forallb filter]; [reflexivity|].
  intros H. apply andb_true_iff in H as [Hx Hl].
  apply negb_true_iff in Hx. rewrite Hx. now apply IH.
Qed.

(** X16. Columns the class does not declare do not disturb the mapper: of a
    table that has the ten columns of the class among other columns, none of
    them named in [include_properties], the mapper maps the ten columns of the
    class, and the schema has the fields it has for the class alone. *)
Theorem mapped_columns_ignore_other_columns (before after : list Column) :
  forallb (fun c => negb (existsb (String.eqb c.(column_name)) include_properties))
    (before ++ after) = true ->
  mapped_columns (before ++ Credit_columns ++ after) = Credit_columns
  /\ CreditSchema_fields (before ++ Credit_columns ++ after)
     = CreditSchema_fields Credit_columns.
Proof.
  intros H. rewrite forallb_app in H. apply andb_true_iff in H as [Hb Ha].
  assert (E : mapped_columns (before ++ Credit_columns ++ after) = Credit_columns).
  { unfold mapped_columns. rewrite !filter_app.
    rewrite (filter_none _ _ Hb), (filter_none _ _ Ha), app_nil_r. reflexivity. }
  split; [exact E|]. unfold CreditSchema_fields. now rewrite E.
Qed.

Lemma mapped_columns_ignore_other_columns_example :
  mapped_columns ([column "routing_slip"] ++ Credit_columns ++ [column "updated_on"])
  = Credit_columns
  /\ CreditSchema_fields
       ([column "routing_slip"] ++ Credit_columns ++ [column "updated_on"])
     = CreditSchema_fields Credit_columns.
Proof.
  apply (@mapped_columns_ignore_other_columns [column "routing_slip"]
           [column "updated_on"]).
  reflexivity.
Defined.
